(** * doubutuWorld: the hiragana substitution engine of [app.js]

    A shallow embedding of the dictionary parser ([parseDictTsv]), of the
    longest-match substitution ([convert], in the two revisions the
    repository carries) and of the classification loop of
    [buildHighlightHtml], together with the properties the design document
    states about them.

    Data model.  A JavaScript string is a sequence of UTF-16 code units; it
    is a [list N] here.  [Array.from(s)] cuts a string into code points, each
    of them again a (one or two unit) string, so a "symbol" is a [jsstring]
    as well.  The two [Map]s of the dictionary are [gmap]s from strings to
    strings and the [Set] of skipped symbols is a [gset].  The values of the
    maps are strings (the parser stores slices of lines), so that
    [get(k) !== undefined] and [has(k)] both test whether [k] is bound.

    [String.prototype.normalize('NFC')] is a table of the Unicode standard,
    not code of this repository: it is a parameter ([normalizeNFC]) of every
    definition that calls it. *)

From Stdlib Require Import NArith String Ascii DecimalString.
From stdpp Require Import base list gmap.

Open Scope N_scope.

(** ** Strings *)

Abbreviation jsstring := (list N).

(** The code units of an ASCII literal. *)
Definition lit (s : string) : jsstring :=
  map (fun c => N_of_ascii c) (list_ascii_of_string s).

Definition LF : N := 10.
Definition CR : N := 13.
Definition TAB : N := 9.
Definition SPACE : N := 32.
Definition HASH : N := 35.

(** Strict equality of two strings, [a === b]. *)
Definition str_eqb (a b : jsstring) : bool := bool_decide (a = b).

(** [Array.from(s)]: the string iterator yields one string per code point;
    a high surrogate directly followed by a low surrogate is one element,
    every other code unit (a lone surrogate too) is an element by itself. *)
Definition isHighSurrogate (u : N) : bool := (0xD800 <=? u) && (u <=? 0xDBFF).
Definition isLowSurrogate (u : N) : bool := (0xDC00 <=? u) && (u <=? 0xDFFF).

Fixpoint Array_from (s : jsstring) : list jsstring :=
  match s with
  | [] => []
  | u :: rest =>
      match rest with
      | v :: rest' =>
          if isHighSurrogate u && isLowSurrogate v
          then [u; v] :: Array_from rest'
          else [u] :: Array_from rest
      | [] => [[u]]
      end
  end.

(** ** The alphabet and the passthrough characters (lines 1-6) *)

(** [HIRAGANA_RE.test(ch)] for [/^[\u3041-\u3096]$/]: the expression has no
    flag, so it matches exactly the strings of one code unit in the range. *)
Definition HIRAGANA_RE_test (ch : jsstring) : bool :=
  match ch with
  | [u] => (0x3041 <=? u) && (u <=? 0x3096)
  | _ => false
  end.

Definition isWhitespace (ch : jsstring) : bool :=
  str_eqb ch [LF] || str_eqb ch [CR] || str_eqb ch [TAB] || str_eqb ch [SPACE].

(** ** The dictionary table *)

Record Dict := mkDict {
  map1 : gmap jsstring jsstring;
  map2 : gmap jsstring jsstring
}.

Definition emptyDict : Dict := mkDict ∅ ∅.

(** ** Substitution: [convert] (lines 57-91) *)

(** The variables of the scanning loop: the cursor [i], the output built so
    far and the set of skipped symbols. *)
Record ScanState := mkScan {
  st_i : nat;
  st_out : jsstring;
  st_skipped : gset jsstring
}.

(** What [convert] returns, [{ out, skipped }]. *)
Record Converted := mkConverted {
  out : jsstring;
  skipped : gset jsstring
}.

(** One turn of [for (let i = 0; i < chars.length; )].  [None] is the exit
    of the loop ([chars !! i] is defined exactly when [i < chars.length]). *)
Definition convert_step (chars : list jsstring) (dict : Dict) (st : ScanState)
  : option ScanState :=
  let i := st_i st in
  match chars !! i with
  | None => None
  | Some ch =>
      if isWhitespace ch then
        Some (mkScan (i + 1) (st_out st ++ ch) (st_skipped st))
      else if negb (HIRAGANA_RE_test ch) then
        Some (mkScan (i + 1) (st_out st) ({[ ch ]} ∪ st_skipped st))
      else
        let v2 :=
          match chars !! (i + 1)%nat with
          | Some next =>
              if HIRAGANA_RE_test next then map2 dict !! (ch ++ next) else None
          | None => None
          end in
        match v2 with
        | Some v2 => Some (mkScan (i + 2) (st_out st ++ v2) (st_skipped st))
        | None =>
            match map1 dict !! ch with
            | Some v1 => Some (mkScan (i + 1) (st_out st ++ v1) (st_skipped st))
            | None => Some (mkScan (i + 1) (st_out st) ({[ ch ]} ∪ st_skipped st))
            end
        end
  end.

(** The loop, run for at most [fuel] turns. *)
Fixpoint convert_loop (fuel : nat) (chars : list jsstring) (dict : Dict)
  (st : ScanState) : ScanState :=
  match fuel with
  | O => st
  | S fuel' =>
      match convert_step chars dict st with
      | None => st
      | Some st' => convert_loop fuel' chars dict st'
      end
  end.

(** The loop from its initial state.  Every turn moves the cursor forward,
    so [length chars] turns are enough ([convert_chars_exits]). *)
Definition convert_chars (chars : list jsstring) (dict : Dict) : Converted :=
  let st := convert_loop (length chars) chars dict (mkScan 0 [] ∅) in
  mkConverted (st_out st) (st_skipped st).

(** ** Classification: the first loop of [buildHighlightHtml] (lines 94-120) *)

Inductive markTag := good | space | bad.

(** [mark[i] = x] on a JavaScript array: inside the array the cell is
    overwritten, past its end the array grows and the cells in between are
    holes ([None]). *)
Definition array_set {A} (i : nat) (x : A) (a : list (option A))
  : list (option A) :=
  if decide (i < length a)%nat then <[ i := Some x ]> a
  else a ++ replicate (i - length a) None ++ [Some x].

Record MarkState := mkMark {
  hl_i : nat;
  hl_mark : list (option markTag)
}.

Definition highlight_step (chars : list jsstring) (dict : Dict) (st : MarkState)
  : option MarkState :=
  let i := hl_i st in
  let mark := hl_mark st in
  match chars !! i with
  | None => None
  | Some ch =>
      if isWhitespace ch then Some (mkMark (i + 1) (array_set i space mark))
      else if negb (HIRAGANA_RE_test ch) then
        Some (mkMark (i + 1) (array_set i bad mark))
      else
        let has2 :=
          match chars !! (i + 1)%nat with
          | Some next =>
              HIRAGANA_RE_test next
              && bool_decide (is_Some (map2 dict !! (ch ++ next)))
          | None => false
          end in
        if has2 then
          Some (mkMark (i + 2) (array_set (i + 1) good (array_set i good mark)))
        else
          Some (mkMark (i + 1)
                  (array_set i
                     (if bool_decide (is_Some (map1 dict !! ch)) then good else bad)
                     mark))
  end.

Fixpoint highlight_loop (fuel : nat) (chars : list jsstring) (dict : Dict)
  (st : MarkState) : MarkState :=
  match fuel with
  | O => st
  | S fuel' =>
      match highlight_step chars dict st with
      | None => st
      | Some st' => highlight_loop fuel' chars dict st'
      end
  end.

(** [mark] after the first loop; it starts as
    [new Array(chars.length).fill('good')]. *)
Definition highlight_marks (chars : list jsstring) (dict : Dict)
  : list (option markTag) :=
  hl_mark (highlight_loop (length chars) chars dict
             (mkMark 0 (replicate (length chars) (Some good)))).

(** The rendering loop (lines 122-127) and [escapeHtml] (lines 8-15). *)
Definition replaceAll (pat : N) (rep : jsstring) (s : jsstring) : jsstring :=
  flat_map (fun u => if u =? pat then rep else [u]) s.

Definition escapeHtml (s : jsstring) : jsstring :=
  replaceAll 39 (lit "&#39;")
    (replaceAll 34 (lit "&quot;")
       (replaceAll 62 (lit "&gt;")
          (replaceAll 60 (lit "&lt;")
             (replaceAll 38 (lit "&amp;") s)))).

Definition render_cell (ch : jsstring) (m : option (option markTag)) : jsstring :=
  let esc := escapeHtml (if str_eqb ch [TAB] then lit "    " else ch) in
  match m with
  | Some (Some bad) =>
      lit "<span class=" ++ [34] ++ lit "bad" ++ [34] ++ lit ">"
        ++ esc ++ lit "</span>"
  | _ => esc
  end.

Definition render (chars : list jsstring) (mark : list (option markTag))
  : jsstring :=
  foldl (fun html i =>
           match chars !! i with
           | Some ch => html ++ render_cell ch (mark !! i)
           | None => html
           end)
        [] (seq 0 (length chars)).

(** ** The second revision of [convert] (lines 246-287)

    The repository carries a second revision of the script, the page without
    the highlight overlay.  Its [convert] differs from the one above in one
    branch: a symbol that is not hiragana is passed over without being added
    to [skipped] (lines 262-266).  Its [parseDictTsv] (lines 204-237) reads
    as the one of lines 19-47, with an indexed loop over the lines. *)
Module Plain.

Definition convert_step (chars : list jsstring) (dict : Dict) (st : ScanState)
  : option ScanState :=
  let i := st_i st in
  match chars !! i with
  | None => None
  | Some ch =>
      if isWhitespace ch then
        Some (mkScan (i + 1) (st_out st ++ ch) (st_skipped st))
      else if negb (HIRAGANA_RE_test ch) then
        Some (mkScan (i + 1) (st_out st) (st_skipped st))
      else
        let v2 :=
          match chars !! (i + 1)%nat with
          | Some next =>
              if HIRAGANA_RE_test next then map2 dict !! (ch ++ next) else None
          | None => None
          end in
        match v2 with
        | Some v2 => Some (mkScan (i + 2) (st_out st ++ v2) (st_skipped st))
        | None =>
            match map1 dict !! ch with
            | Some v1 => Some (mkScan (i + 1) (st_out st ++ v1) (st_skipped st))
            | None => Some (mkScan (i + 1) (st_out st) ({[ ch ]} ∪ st_skipped st))
            end
        end
  end.

Fixpoint convert_loop (fuel : nat) (chars : list jsstring) (dict : Dict)
  (st : ScanState) : ScanState :=
  match fuel with
  | O => st
  | S fuel' =>
      match convert_step chars dict st with
      | None => st
      | Some st' => convert_loop fuel' chars dict st'
      end
  end.

Definition convert_chars (chars : list jsstring) (dict : Dict) : Converted :=
  let st := convert_loop (length chars) chars dict (mkScan 0 [] ∅) in
  mkConverted (st_out st) (st_skipped st).

Definition convert (normalizeNFC : jsstring -> jsstring)
  (src : jsstring) (dict : Dict) : Converted :=
  convert_chars (Array_from (normalizeNFC src)) dict.

End Plain.

(** ** String methods used by the parser *)

(** The code units [trim] and [trimEnd] remove: ECMAScript's WhiteSpace
    (TAB, VT, FF, ZWNBSP and the space separators of Unicode) and
    LineTerminator (LF, CR, LS, PS). *)
Definition isTrimSpace (u : N) : bool :=
  (u =? 0x09) || (u =? 0x0A) || (u =? 0x0B) || (u =? 0x0C) || (u =? 0x0D)
  || (u =? 0x20) || (u =? 0xA0) || (u =? 0x1680)
  || ((0x2000 <=? u) && (u <=? 0x200A))
  || (u =? 0x2028) || (u =? 0x2029) || (u =? 0x202F) || (u =? 0x205F)
  || (u =? 0x3000) || (u =? 0xFEFF).

Fixpoint trimStart (s : jsstring) : jsstring :=
  match s with
  | u :: rest => if isTrimSpace u then trimStart rest else s
  | [] => []
  end.

Definition trimEnd (s : jsstring) : jsstring := rev (trimStart (rev s)).

Definition trim (s : jsstring) : jsstring := trimStart (trimEnd s).

(** [s.indexOf(c)] for a one unit [c]; [None] is the result [-1]. *)
Fixpoint indexOf (c : N) (s : jsstring) : option nat :=
  match s with
  | [] => None
  | u :: rest => if u =? c then Some O else S <$> indexOf c rest
  end.

(** [s.startsWith(c)] for a one unit [c]. *)
Definition startsWith (c : N) (s : jsstring) : bool :=
  match s with
  | u :: _ => u =? c
  | [] => false
  end.

(** [text.split(/\r?\n/)]: a line ends at LF; a CR directly before that LF
    belongs to the separator.  The result is never empty. *)
Fixpoint split_lines (text : jsstring) : list jsstring :=
  match text with
  | [] => [[]]
  | u :: rest =>
      let continued :=
        match split_lines rest with
        | line :: lines => (u :: line) :: lines
        | [] => [[u]]
        end in
      if u =? LF then [] :: split_lines rest
      else if u =? CR then
        match rest with
        | v :: rest' => if v =? LF then [] :: split_lines rest' else continued
        | [] => continued
        end
      else continued
  end.

(** ** Normalisation, and the functions that call it *)

Section Engine.

(** [String.prototype.normalize('NFC')]. *)
Variable normalizeNFC : jsstring -> jsstring.

(** The body of the loop of [parseDictTsv] (lines 24-44), as the table
    after one line; each [continue] returns the table unchanged. *)
Definition parse_line (d : Dict) (raw : jsstring) : Dict :=
  let line := trimEnd raw in
  if bool_decide (line = []) || startsWith HASH line then d
  else
    match indexOf TAB line with
    | None => d
    | Some tab =>
        let keyRaw := trim (take tab line) in
        let value := drop (tab + 1) line in
        let key := normalizeNFC keyRaw in
        let chars := Array_from key in
        match chars with
        | [k] =>
            if HIRAGANA_RE_test k
            then mkDict (<[ k := value ]> (map1 d)) (map2 d)
            else d
        | [k0; k1] =>
            if HIRAGANA_RE_test k0 && HIRAGANA_RE_test k1
            then mkDict (map1 d) (<[ k0 ++ k1 := value ]> (map2 d))
            else d
        | _ => d
        end
    end.

(** [parseDictTsv] (lines 19-47). *)
Definition parseDictTsv (text : jsstring) : Dict :=
  foldl parse_line emptyDict (split_lines text).

(** [convert] (lines 57-91). *)
Definition convert (src : jsstring) (dict : Dict) : Converted :=
  convert_chars (Array_from (normalizeNFC src)) dict.

(** [buildHighlightHtml] (lines 94-129). *)
Definition buildHighlightHtml (src : jsstring) (dict : Dict) : jsstring :=
  let chars := Array_from (normalizeNFC src) in
  render chars (highlight_marks chars dict).

End Engine.

(** A normaliser for text that is in NFC already (ASCII and the precomposed
    hiragana of the alphabet are): used to run the functions on such text. *)
Definition nfc_stable (s : jsstring) : jsstring := s.

Definition HI_A : N := 0x3042.
Definition HI_I : N := 0x3044.

(** ** The entry a line contributes

    The effect of one line on the table, read off the loop body: the line
    either sets one key of one of the two maps or is passed over
    ([parse_line_entry]). *)
Inductive keyClass := OneSymbol | TwoSymbol.

#[global] Instance keyClass_eq_dec : EqDecision keyClass.
Proof. solve_decision. Defined.

Record entry := mkEntry {
  e_class : keyClass;
  e_key : jsstring;
  e_value : jsstring
}.

Definition line_entry (normalizeNFC : jsstring -> jsstring) (raw : jsstring)
  : option entry :=
  let line := trimEnd raw in
  if bool_decide (line = []) || startsWith HASH line then None
  else
    match indexOf TAB line with
    | None => None
    | Some tab =>
        let keyRaw := trim (take tab line) in
        let value := drop (tab + 1) line in
        match Array_from (normalizeNFC keyRaw) with
        | [k] =>
            if HIRAGANA_RE_test k then Some (mkEntry OneSymbol k value)
            else None
        | [k0; k1] =>
            if HIRAGANA_RE_test k0 && HIRAGANA_RE_test k1
            then Some (mkEntry TwoSymbol (k0 ++ k1) value)
            else None
        | _ => None
        end
    end.

(** [map1.set(k, value)] or [map2.set(k0 + k1, value)]. *)
Definition table_set (d : Dict) (e : entry) : Dict :=
  match e_class e with
  | OneSymbol => mkDict (<[ e_key e := e_value e ]> (map1 d)) (map2 d)
  | TwoSymbol => mkDict (map1 d) (<[ e_key e := e_value e ]> (map2 d))
  end.

Definition table_get (d : Dict) (c : keyClass) (k : jsstring)
  : option jsstring :=
  match c with
  | OneSymbol => map1 d !! k
  | TwoSymbol => map2 d !! k
  end.

(** The symbols of the normalised key of a line that has a tab. *)
Definition line_key (normalizeNFC : jsstring -> jsstring) (raw : jsstring)
  : option (list jsstring) :=
  let line := trimEnd raw in
  match indexOf TAB line with
  | None => None
  | Some tab => Some (Array_from (normalizeNFC (trim (take tab line))))
  end.

(** ** The decisions of the scan

    The branch a turn of [convert]'s loop takes, with the symbols it reads:
    these are the "match decisions" that the classification is compared
    with. *)
Inductive event :=
| Passthrough (ch : jsstring)          (* line 67: whitespace, copied *)
| Foreign (ch : jsstring)              (* lines 69-73: not hiragana *)
| Pair (ch next v2 : jsstring)         (* lines 76-80: two symbol entry *)
| Single (ch v1 : jsstring)            (* lines 83-84: one symbol entry *)
| Unregistered (ch : jsstring).        (* line 85: hiragana without entry *)

(** The branch of the turn at cursor [i], by the conditions of lines 64-87. *)
Definition convert_event (chars : list jsstring) (dict : Dict) (i : nat)
  : option event :=
  match chars !! i with
  | None => None
  | Some ch =>
      if isWhitespace ch then Some (Passthrough ch)
      else if negb (HIRAGANA_RE_test ch) then Some (Foreign ch)
      else
        let single :=
          match map1 dict !! ch with
          | Some v1 => Single ch v1
          | None => Unregistered ch
          end in
        match chars !! (i + 1)%nat with
        | Some next =>
            if HIRAGANA_RE_test next then
              match map2 dict !! (ch ++ next) with
              | Some v2 => Some (Pair ch next v2)
              | None => Some single
              end
            else Some single
        | None => Some single
        end
  end.

(** How many symbols the turn consumes. *)
Definition width (ev : event) : nat :=
  match ev with
  | Pair _ _ _ => 2
  | _ => 1
  end.

(** The turns of [convert]'s loop, each with the cursor it started at. *)
Fixpoint convert_trace (fuel : nat) (chars : list jsstring) (dict : Dict)
  (st : ScanState) : list (nat * event) :=
  match fuel with
  | O => []
  | S fuel' =>
      match convert_event chars dict (st_i st), convert_step chars dict st with
      | Some ev, Some st' => (st_i st, ev) :: convert_trace fuel' chars dict st'
      | _, _ => []
      end
  end.

(** The turn of [convert]'s loop that consumed position [p], if any. *)
Definition convert_decision (chars : list jsstring) (dict : Dict) (p : nat)
  : option event :=
  (fun hit => snd (snd hit)) <$>
    list_find (fun t => (fst t <= p < fst t + width (snd t))%nat)
      (convert_trace (length chars) chars dict (mkScan 0 [] ∅)).

(** A successful 1- or 2-symbol lookup. *)
Definition is_hit (ev : event) : bool :=
  match ev with
  | Pair _ _ _ | Single _ _ => true
  | _ => false
  end.

(** A symbol recorded as a non-match ([skipped.add]). *)
Definition is_miss (ev : event) : bool :=
  match ev with
  | Foreign _ | Unregistered _ => true
  | _ => false
  end.

Definition is_passthrough (ev : event) : bool :=
  match ev with
  | Passthrough _ => true
  | _ => false
  end.

(** The tag the classification owes to a decision (section 4.3). *)
Definition tag_of (ev : event) : markTag :=
  match ev with
  | Passthrough _ => space
  | Foreign _ | Unregistered _ => bad
  | Pair _ _ _ | Single _ _ => good
  end.

(** What a decision appends to the output and what it records. *)
Definition emitted (ev : event) : jsstring :=
  match ev with
  | Passthrough ch => ch
  | Pair _ _ v2 => v2
  | Single _ v1 => v1
  | Foreign _ | Unregistered _ => []
  end.

Definition recorded (ev : event) : gset jsstring :=
  match ev with
  | Foreign ch | Unregistered ch => {[ ch ]}
  | _ => ∅
  end.

Definition recorded_plain (ev : event) : gset jsstring :=
  match ev with
  | Unregistered ch => {[ ch ]}
  | _ => ∅
  end.

(** The scan as a recursion on the symbols that are left: the decisions of
    a run over [l], in order ([convert_loop_scan] relates it to the loop). *)
Fixpoint scan (dict : Dict) (l : list jsstring) : list event :=
  match l with
  | [] => []
  | ch :: rest =>
      if isWhitespace ch then Passthrough ch :: scan dict rest
      else if negb (HIRAGANA_RE_test ch) then Foreign ch :: scan dict rest
      else
        let single :=
          match map1 dict !! ch with
          | Some v1 => Single ch v1
          | None => Unregistered ch
          end in
        match rest with
        | next :: rest' =>
            if HIRAGANA_RE_test next then
              match map2 dict !! (ch ++ next) with
              | Some v2 => Pair ch next v2 :: scan dict rest'
              | None => single :: scan dict rest
              end
            else single :: scan dict rest
        | [] => single :: scan dict rest
        end
  end.

Definition events_out (evs : list event) : jsstring := flat_map emitted evs.

Definition events_skipped (evs : list event) : gset jsstring :=
  ⋃ (recorded <$> evs).

Definition events_skipped_plain (evs : list event) : gset jsstring :=
  ⋃ (recorded_plain <$> evs).

(** The decisions laid out one per position. *)
Definition per_position (evs : list event) : list event :=
  flat_map (fun ev => replicate (width ev) ev) evs.

(** The decisions with the cursor each starts at. *)
Fixpoint positions (start : nat) (evs : list event) : list (nat * event) :=
  match evs with
  | [] => []
  | ev :: evs' => (start, ev) :: positions (start + width ev) evs'
  end.

(** A loop that takes [convert]'s decision at its cursor and acts on it:
    the common shape of the three loops of the script. *)
Fixpoint run {S : Type} (cursor : S -> nat) (act : event -> S -> S)
  (fuel : nat) (chars : list jsstring) (dict : Dict) (s : S) : S :=
  match fuel with
  | O => s
  | S fuel' =>
      match convert_event chars dict (cursor s) with
      | None => s
      | Some ev => run cursor act fuel' chars dict (act ev s)
      end
  end.

(** The three actions. *)
Definition act_convert (ev : event) (st : ScanState) : ScanState :=
  mkScan (st_i st + width ev) (st_out st ++ emitted ev)
    (recorded ev ∪ st_skipped st).

Definition act_plain (ev : event) (st : ScanState) : ScanState :=
  mkScan (st_i st + width ev) (st_out st ++ emitted ev)
    (recorded_plain ev ∪ st_skipped st).

Definition act_mark (ev : event) (st : MarkState) : MarkState :=
  mkMark (hl_i st + width ev)
    (match ev with
     | Pair _ _ _ =>
         array_set (hl_i st + 1) good (array_set (hl_i st) good (hl_mark st))
     | _ => array_set (hl_i st) (tag_of ev) (hl_mark st)
     end).

(** A property of the script on a text that normalisation leaves as it is
    (as NFC leaves ASCII and the precomposed hiragana of the alphabet):
    it holds whatever else the normaliser does. *)
Definition on_normalized (src : jsstring)
  (P : (jsstring -> jsstring) -> Prop) : Prop :=
  forall normalizeNFC : jsstring -> jsstring,
    normalizeNFC src = src -> P normalizeNFC.

(** The decisions of a scan are taken on the conditions of the code. *)
Definition event_ok (ev : event) : Prop :=
  match ev with
  | Passthrough ch => isWhitespace ch = true
  | Foreign ch => isWhitespace ch = false /\ HIRAGANA_RE_test ch = false
  | Pair ch next _ => HIRAGANA_RE_test ch = true /\ HIRAGANA_RE_test next = true
  | Single ch _ | Unregistered ch => HIRAGANA_RE_test ch = true
  end.

(** ** More on the decisions of the scan *)

(** The symbols a turn consumes. *)
Definition event_symbols (ev : event) : list jsstring :=
  match ev with
  | Passthrough ch | Foreign ch | Single ch _ | Unregistered ch => [ch]
  | Pair ch next _ => [ch; next]
  end.

(** The two results of [convert] on two stretches of a text, put together. *)
Definition Converted_app (r1 r2 : Converted) : Converted :=
  mkConverted (out r1 ++ out r2) (skipped r1 ∪ skipped r2).

(** What the table says where a decision was taken on a lookup. *)
Definition event_sound (dict : Dict) (ev : event) : Prop :=
  match ev with
  | Pair ch next v2 => map2 dict !! (ch ++ next) = Some v2
  | Single ch v1 => map1 dict !! ch = Some v1
  | Unregistered ch => map1 dict !! ch = None
  | Passthrough _ | Foreign _ => True
  end.

(** ** The pieces of the rendering *)

(** What [escapeHtml] makes of one code unit. *)
Definition escape_unit (u : N) : jsstring :=
  if u =? 38 then lit "&amp;"
  else if u =? 60 then lit "&lt;"
  else if u =? 62 then lit "&gt;"
  else if u =? 34 then lit "&quot;"
  else if u =? 39 then lit "&#39;"
  else [u].

(** [ch === '\t' ? '    ' : ch] (line 125). *)
Definition tab_expand (ch : jsstring) : jsstring :=
  if str_eqb ch [TAB] then lit "    " else ch.

(** The span around a symbol marked bad (line 126). *)
Definition span_bad (esc : jsstring) : jsstring :=
  lit "<span class=" ++ [34] ++ lit "bad" ++ [34] ++ lit ">"
    ++ esc ++ lit "</span>".

(** ** The parser of the second revision (lines 204-237)

    The same steps as in lines 19-47, in a loop over the indices of
    [lines]: every [continue] goes on with the next index. *)
Module PlainDict.

Definition parse_step (normalizeNFC : jsstring -> jsstring)
  (lines : list jsstring) (st : nat * Dict) : option (nat * Dict) :=
  let i := fst st in
  let d := snd st in
  match lines !! i with
  | None => None
  | Some raw =>
      let line := trimEnd raw in
      if bool_decide (line = []) || startsWith HASH line then Some (i + 1, d)%nat
      else
        match indexOf TAB line with
        | None => Some (i + 1, d)%nat
        | Some tab =>
            let keyRaw := trim (take tab line) in
            let value := drop (tab + 1) line in
            let key := normalizeNFC keyRaw in
            let keyChars := Array_from key in
            match keyChars with
            | [k] =>
                if HIRAGANA_RE_test k
                then Some (i + 1, mkDict (<[ k := value ]> (map1 d)) (map2 d))%nat
                else Some (i + 1, d)%nat
            | [k0; k1] =>
                if HIRAGANA_RE_test k0 && HIRAGANA_RE_test k1
                then Some (i + 1,
                           mkDict (map1 d) (<[ k0 ++ k1 := value ]> (map2 d)))%nat
                else Some (i + 1, d)%nat
            | _ => Some (i + 1, d)%nat
            end
        end
  end.

Fixpoint parse_loop (normalizeNFC : jsstring -> jsstring) (fuel : nat)
  (lines : list jsstring) (st : nat * Dict) : nat * Dict :=
  match fuel with
  | O => st
  | S fuel' =>
      match parse_step normalizeNFC lines st with
      | None => st
      | Some st' => parse_loop normalizeNFC fuel' lines st'
      end
  end.

Definition parseDictTsv (normalizeNFC : jsstring -> jsstring)
  (text : jsstring) : Dict :=
  let lines := split_lines text in
  snd (parse_loop normalizeNFC (length lines) lines (0%nat, emptyDict)).

End PlainDict.

(** ** Line endings *)

(** A text cut at every LF, as [split(/\n/)] would. *)
Fixpoint split_LF (text : jsstring) : list jsstring :=
  match text with
  | [] => [[]]
  | u :: rest =>
      if u =? LF then [] :: split_LF rest
      else match split_LF rest with
           | line :: lines => (u :: line) :: lines
           | [] => [[u]]
           end
  end.

(** A text with every LF made a CR LF. *)
Definition to_crlf (text : jsstring) : jsstring :=
  flat_map (fun u => if u =? LF then [CR; LF] else [u]) text.

(** The entries of the lines of a text for one key, in the order of the
    lines. *)
Definition entries_for (normalizeNFC : jsstring -> jsstring)
  (text : jsstring) (c : keyClass) (k : jsstring) : list entry :=
  filter (fun e => e_class e = c /\ e_key e = k)
    (omap (line_entry normalizeNFC) (split_lines text)).

(** ** The skipped symbols in the order of the [Set]

    [setStatus] and the second revision's [refresh] spread the [Set] of
    skipped symbols into an array, which lists its elements in the order in
    which they were added.  For them the [Set] is a list without repeats:
    [add] appends a symbol that is not in it and leaves the others alone.
    ([skipped_in_order_refines] relates this to the [gset] of [convert].) *)
Definition Set_add (x : jsstring) (s : list jsstring) : list jsstring :=
  if decide (x ∈ s) then s else s ++ [x].

Record OrdState := mkOrd {
  ord_i : nat;
  ord_out : jsstring;
  ord_skipped : list jsstring
}.

Module InOrder.

(** [convert] of lines 57-91. *)
Definition convert_step (chars : list jsstring) (dict : Dict) (st : OrdState)
  : option OrdState :=
  let i := ord_i st in
  match chars !! i with
  | None => None
  | Some ch =>
      if isWhitespace ch then
        Some (mkOrd (i + 1) (ord_out st ++ ch) (ord_skipped st))
      else if negb (HIRAGANA_RE_test ch) then
        Some (mkOrd (i + 1) (ord_out st) (Set_add ch (ord_skipped st)))
      else
        let v2 :=
          match chars !! (i + 1)%nat with
          | Some next =>
              if HIRAGANA_RE_test next then map2 dict !! (ch ++ next) else None
          | None => None
          end in
        match v2 with
        | Some v2 => Some (mkOrd (i + 2) (ord_out st ++ v2) (ord_skipped st))
        | None =>
            match map1 dict !! ch with
            | Some v1 => Some (mkOrd (i + 1) (ord_out st ++ v1) (ord_skipped st))
            | None =>
                Some (mkOrd (i + 1) (ord_out st) (Set_add ch (ord_skipped st)))
            end
        end
  end.

(** [convert] of lines 246-287. *)
Definition plain_convert_step (chars : list jsstring) (dict : Dict)
  (st : OrdState) : option OrdState :=
  let i := ord_i st in
  match chars !! i with
  | None => None
  | Some ch =>
      if isWhitespace ch then
        Some (mkOrd (i + 1) (ord_out st ++ ch) (ord_skipped st))
      else if negb (HIRAGANA_RE_test ch) then
        Some (mkOrd (i + 1) (ord_out st) (ord_skipped st))
      else
        let v2 :=
          match chars !! (i + 1)%nat with
          | Some next =>
              if HIRAGANA_RE_test next then map2 dict !! (ch ++ next) else None
          | None => None
          end in
        match v2 with
        | Some v2 => Some (mkOrd (i + 2) (ord_out st ++ v2) (ord_skipped st))
        | None =>
            match map1 dict !! ch with
            | Some v1 => Some (mkOrd (i + 1) (ord_out st ++ v1) (ord_skipped st))
            | None =>
                Some (mkOrd (i + 1) (ord_out st) (Set_add ch (ord_skipped st)))
            end
        end
  end.

Fixpoint loop (step : OrdState -> option OrdState) (fuel : nat)
  (st : OrdState) : OrdState :=
  match fuel with
  | O => st
  | S fuel' =>
      match step st with
      | None => st
      | Some st' => loop step fuel' st'
      end
  end.

(** The [skipped] of the two revisions, in the order of the [Set]. *)
Definition skipped_of (normalizeNFC : jsstring -> jsstring)
  (src : jsstring) (dict : Dict) : list jsstring :=
  let chars := Array_from (normalizeNFC src) in
  ord_skipped (loop (convert_step chars dict) (length chars) (mkOrd 0 [] [])).

Definition plain_skipped_of (normalizeNFC : jsstring -> jsstring)
  (src : jsstring) (dict : Dict) : list jsstring :=
  let chars := Array_from (normalizeNFC src) in
  ord_skipped
    (loop (plain_convert_step chars dict) (length chars) (mkOrd 0 [] [])).

End InOrder.

(** ** The status line *)

(** A size in a template literal: its decimal digits. *)
Definition decimal (n : nat) : jsstring :=
  lit (NilEmpty.string_of_uint (Nat.to_uint n)).

(** The template of line 132 (and 308), by its code units. *)
Definition status_base (dict : Dict) : jsstring :=
  [0x8f9e; 0x66f8; 0xff1a; 0x31; 0x6587; 0x5b57]
    ++ decimal (size (map1 dict))
    ++ [0x4ef6; 0x20; 0x2f; 0x20; 0x32; 0x6587; 0x5b57]
    ++ decimal (size (map2 dict)) ++ [0x4ef6].

(** What lines 135 and 310 put between the base and the skipped symbols. *)
Definition status_unregistered : jsstring :=
  [0x20; 0x2f; 0x20; 0x672a; 0x767b; 0x9332; 0xff1a].

(** [setStatus] (lines 131-139), as the text it gives the element; the
    [Set] it is called with is never null. *)
Definition setStatus (dict : Dict) (skippedSet : list jsstring) : jsstring :=
  let base := status_base dict in
  if (0 <? length skippedSet)%nat then
    let skipped := mjoin (List.filter HIRAGANA_RE_test skippedSet) in
    if bool_decide (skipped = []) then base
    else base ++ status_unregistered ++ skipped
  else base.

(** The status [refresh] shows (lines 166 and 175). *)
Definition refresh_status (normalizeNFC : jsstring -> jsstring)
  (src : jsstring) (dict : Dict) : jsstring :=
  setStatus dict (InOrder.skipped_of normalizeNFC src dict).

(** The status the second revision's [refresh] shows (lines 305-313). *)
Definition plain_refresh_status (normalizeNFC : jsstring -> jsstring)
  (src : jsstring) (dict : Dict) : jsstring :=
  let skipped := InOrder.plain_skipped_of normalizeNFC src dict in
  let base := status_base dict in
  if (0 <? length skipped)%nat
  then base ++ status_unregistered ++ mjoin skipped
  else base.

(** The symbols a decision adds to [skipped], in the two revisions. *)
Definition recorded_list (ev : event) : list jsstring :=
  match ev with
  | Foreign ch | Unregistered ch => [ch]
  | _ => []
  end.

Definition recorded_list_plain (ev : event) : list jsstring :=
  match ev with
  | Unregistered ch => [ch]
  | _ => []
  end.

Definition act_ord (ev : event) (st : OrdState) : OrdState :=
  mkOrd (ord_i st + width ev) (ord_out st ++ emitted ev)
    (foldl (fun s x => Set_add x s) (ord_skipped st) (recorded_list ev)).

Definition act_ord_plain (ev : event) (st : OrdState) : OrdState :=
  mkOrd (ord_i st + width ev) (ord_out st ++ emitted ev)
    (foldl (fun s x => Set_add x s) (ord_skipped st) (recorded_list_plain ev)).

(** The symbols of a list, once each, in the order of their first
    occurrence. *)
Definition first_occurrences (l : list jsstring) : list jsstring :=
  foldl (fun s x => Set_add x s) [] l.

(** The symbols at the positions the classification marks bad, in the
    order of the text. *)
Definition bad_symbols (chars : list jsstring) (dict : Dict) : list jsstring :=
  omap (fun cm => match snd cm with
                  | Some bad => Some (fst cm)
                  | _ => None
                  end)
    (zip chars (highlight_marks chars dict)).

Close Scope N_scope.

#[local] Set Warnings "-clear-no-such-hyp".

(** * Properties *)

(** ** The script on sample texts *)

Example split_lines_sample :
  split_lines (lit "a" ++ [CR; LF] ++ lit "b" ++ [LF; CR; CR; LF])
  = [lit "a"; lit "b"; [CR]; []].
Proof. reflexivity. Qed.

Example trim_sample :
  trimEnd ([SPACE] ++ lit "a b" ++ [TAB; 0x3000%N; CR])
  = [SPACE] ++ lit "a b"
  /\ trim ([SPACE] ++ lit "a b" ++ [TAB; 0x3000%N; CR]) = lit "a b".
Proof. split; reflexivity. Qed.

(** A surrogate pair is one symbol, a lone surrogate is one as well. *)
Example Array_from_sample :
  Array_from [HI_A; 0xD83D%N; 0xDE00%N; 0xD83D%N; 65%N]
  = [[HI_A]; [0xD83D%N; 0xDE00%N]; [0xD83D%N]; [65%N]].
Proof. reflexivity. Qed.

Example parse_sample :
  let d := parseDictTsv nfc_stable
             (lit "# c" ++ [CR; LF; HI_A; TAB] ++ lit "x" ++ [LF; HI_A; HI_I; SPACE; TAB] ++ lit " y z  ") in
  map1 d = {[ [HI_A] := lit "x" ]} /\ map2 d = {[ [HI_A; HI_I] := lit " y z" ]}.
Proof. vm_compute. split; reflexivity. Qed.

Example convert_sample :
  convert nfc_stable [HI_A; HI_I; LF; HI_I; 88%N; HI_A]
    (mkDict {[ [HI_A] := lit "x" ]} {[ [HI_A; HI_I] := lit "yz" ]})
  = mkConverted (lit "yz" ++ [LF] ++ lit "x") {[ [HI_I]; [88%N] ]}.
Proof. vm_compute. reflexivity. Qed.

Example highlight_sample :
  highlight_marks [[HI_A]; [HI_I]; [LF]; [HI_I]; [88%N]; [HI_A]]
    (mkDict {[ [HI_A] := lit "x" ]} {[ [HI_A; HI_I] := lit "yz" ]})
  = [Some good; Some good; Some space; Some bad; Some bad; Some good].
Proof. vm_compute. reflexivity. Qed.

Example plain_convert_sample :
  Plain.convert nfc_stable [HI_A; HI_I; LF; HI_I; 88%N; HI_A]
    (mkDict {[ [HI_A] := lit "x" ]} {[ [HI_A; HI_I] := lit "yz" ]})
  = mkConverted (lit "yz" ++ [LF] ++ lit "x") {[ [HI_I] ]}.
Proof. vm_compute. reflexivity. Qed.

(** ** The loops and the scan *)

Local Ltac leaf :=
  simpl; try done;
  f_equal; f_equal; rewrite ?app_nil_r; try done; try lia; set_solver.

Lemma convert_step_event chars dict st :
  convert_step chars dict st =
  (fun ev => act_convert ev st) <$> convert_event chars dict (st_i st).
Proof.
  unfold act_convert, convert_step, convert_event.
  destruct (chars !! st_i st) as [ch|]; [|done].
  destruct (isWhitespace ch); [leaf|].
  destruct (HIRAGANA_RE_test ch); [|leaf]. simpl.
  destruct (chars !! (st_i st + 1)) as [next|];
    [destruct (HIRAGANA_RE_test next);
       [destruct (map2 dict !! (ch ++ next)); [leaf|]|]|];
    destruct (map1 dict !! ch); leaf.
Qed.

Lemma plain_convert_step_event chars dict st :
  Plain.convert_step chars dict st =
  (fun ev => act_plain ev st) <$> convert_event chars dict (st_i st).
Proof.
  unfold act_plain, Plain.convert_step, convert_event.
  destruct (chars !! st_i st) as [ch|]; [|done].
  destruct (isWhitespace ch); [leaf|].
  destruct (HIRAGANA_RE_test ch); [|leaf]. simpl.
  destruct (chars !! (st_i st + 1)) as [next|];
    [destruct (HIRAGANA_RE_test next);
       [destruct (map2 dict !! (ch ++ next)); [leaf|]|]|];
    destruct (map1 dict !! ch); leaf.
Qed.

(** The classification loop takes the same branch as [convert] at every
    cursor: [has] answers as [get(..) !== undefined] does. *)
Lemma highlight_step_event chars dict st :
  highlight_step chars dict st =
  (fun ev => act_mark ev st) <$> convert_event chars dict (hl_i st).
Proof.
  unfold act_mark, highlight_step, convert_event.
  destruct (chars !! hl_i st) as [ch|]; [|done].
  destruct (isWhitespace ch); [done|].
  destruct (HIRAGANA_RE_test ch); [|done]. simpl.
  destruct (chars !! (hl_i st + 1)) as [next|]; simpl;
    [destruct (HIRAGANA_RE_test next); simpl;
       [destruct (map2 dict !! (ch ++ next)) eqn:E2; simpl|]|];
    try done;
    destruct (map1 dict !! ch) eqn:E1; simpl; done.
Qed.

(** The decision at the head of a suffix, and the unfolding of [scan]
    along it. *)
Lemma convert_event_app pre l dict :
  convert_event (pre ++ l) dict (length pre) = convert_event l dict 0.
Proof.
  unfold convert_event.
  rewrite !lookup_app_r by lia.
  replace (length pre - length pre) with 0 by lia.
  replace (length pre + 1 - length pre) with (0 + 1) by lia.
  done.
Qed.

Lemma width_pos ev : 1 <= width ev.
Proof. destruct ev; simpl; lia. Qed.

Lemma convert_event_width l dict ev :
  convert_event l dict 0 = Some ev -> width ev <= length l.
Proof.
  unfold convert_event. destruct l as [|ch [|next rest]]; simpl; [done| |].
  - intros H. repeat case_match; simplify_eq; simpl; lia.
  - intros H. repeat case_match; simplify_eq; simpl; lia.
Qed.


Lemma scan_cons dict ch rest :
  scan dict (ch :: rest) =
  if isWhitespace ch then Passthrough ch :: scan dict rest
  else if negb (HIRAGANA_RE_test ch) then Foreign ch :: scan dict rest
  else
    let single :=
      match map1 dict !! ch with
      | Some v1 => Single ch v1
      | None => Unregistered ch
      end in
    match rest with
    | next :: rest' =>
        if HIRAGANA_RE_test next then
          match map2 dict !! (ch ++ next) with
          | Some v2 => Pair ch next v2 :: scan dict rest'
          | None => single :: scan dict rest
          end
        else single :: scan dict rest
    | [] => single :: scan dict rest
    end.
Proof. done. Qed.

Lemma scan_unfold dict l :
  scan dict l =
  match convert_event l dict 0 with
  | Some ev => ev :: scan dict (drop (width ev) l)
  | None => []
  end.
Proof.
  destruct l as [|ch rest]; [done|].
  rewrite scan_cons. unfold convert_event.
  destruct rest as [|next rest']; cbn -[scan];
    repeat case_match; simplify_eq; done.
Qed.

Section Loop.
Context {S : Type} (cursor : S -> nat) (act : event -> S -> S).
Hypothesis act_cursor : forall ev s, cursor (act ev s) = cursor s + width ev.

(** With one turn of fuel per symbol the loop performs the decisions of
    [scan], in order, and then stops. *)
Lemma run_scan fuel pre l dict s :
  cursor s = length pre -> length l <= fuel ->
  run cursor act fuel (pre ++ l) dict s
  = foldl (fun s ev => act ev s) s (scan dict l).
Proof.
  revert pre l s. induction fuel as [|fuel IH]; intros pre l s Hc Hl.
  - destruct l; [done | simpl in Hl; lia].
  - simpl. rewrite Hc, convert_event_app, (scan_unfold dict l).
    destruct (convert_event l dict 0) as [ev|] eqn:E; [|done].
    pose proof (convert_event_width _ _ _ E) as Hw.
    pose proof (width_pos ev) as Hp.
    simpl. rewrite <- (take_drop (width ev) l) at 1.
    rewrite app_assoc. apply IH.
    + rewrite act_cursor, Hc, length_app, length_take. lia.
    + rewrite length_drop. lia.
Qed.
End Loop.

Lemma convert_loop_run fuel chars dict st :
  convert_loop fuel chars dict st = run st_i act_convert fuel chars dict st.
Proof.
  revert st. induction fuel as [|fuel IH]; intros st; [done|].
  simpl. rewrite convert_step_event.
  destruct (convert_event chars dict (st_i st)); simpl; [apply IH | done].
Qed.

Lemma plain_convert_loop_run fuel chars dict st :
  Plain.convert_loop fuel chars dict st = run st_i act_plain fuel chars dict st.
Proof.
  revert st. induction fuel as [|fuel IH]; intros st; [done|].
  simpl. rewrite plain_convert_step_event.
  destruct (convert_event chars dict (st_i st)); simpl; [apply IH | done].
Qed.

Lemma highlight_loop_run fuel chars dict st :
  highlight_loop fuel chars dict st = run hl_i act_mark fuel chars dict st.
Proof.
  revert st. induction fuel as [|fuel IH]; intros st; [done|].
  simpl. rewrite highlight_step_event.
  destruct (convert_event chars dict (hl_i st)); simpl; [apply IH | done].
Qed.

(** Induction along the recursion of [scan]: one or two symbols a turn. *)
Lemma list_ind_pairs {A} (P : list A -> Prop) :
  P [] -> (forall x l, P l -> P (tail l) -> P (x :: l)) -> forall l, P l.
Proof.
  intros Hnil Hcons l.
  enough (P l /\ P (tail l)) by tauto.
  induction l as [|x l [IH1 IH2]]; simpl; auto.
Qed.

Lemma per_position_cons ev evs :
  per_position (ev :: evs) = replicate (width ev) ev ++ per_position evs.
Proof. done. Qed.

Lemma scan_per_position_length dict l :
  length (per_position (scan dict l)) = length l.
Proof.
  induction l as [|ch rest IH1 IH2] using list_ind_pairs; [done|].
  rewrite scan_cons.
  destruct rest as [|next rest']; simpl in IH2;
    repeat case_match; rewrite per_position_cons, length_app, length_replicate;
    simpl in *; lia.
Qed.

Lemma foldl_act_convert evs st :
  foldl (fun s ev => act_convert ev s) st evs
  = mkScan (st_i st + length (per_position evs))
      (st_out st ++ events_out evs) (events_skipped evs ∪ st_skipped st).
Proof.
  revert st. induction evs as [|ev evs IH]; intros [i o sk]; simpl.
  - unfold events_skipped. simpl.
    f_equal; [lia | by rewrite app_nil_r | set_solver].
  - rewrite IH. unfold act_convert, events_out, events_skipped. simpl.
    rewrite length_app, length_replicate.
    f_equal; [lia | by rewrite app_assoc | set_solver].
Qed.

Lemma foldl_act_plain evs st :
  foldl (fun s ev => act_plain ev s) st evs
  = mkScan (st_i st + length (per_position evs))
      (st_out st ++ events_out evs) (events_skipped_plain evs ∪ st_skipped st).
Proof.
  revert st. induction evs as [|ev evs IH]; intros [i o sk]; simpl.
  - unfold events_skipped_plain. simpl.
    f_equal; [lia | by rewrite app_nil_r | set_solver].
  - rewrite IH. unfold act_plain, events_out, events_skipped_plain. simpl.
    rewrite length_app, length_replicate.
    f_equal; [lia | by rewrite app_assoc | set_solver].
Qed.

(** [convert]'s loop from cursor [length pre], given enough fuel. *)
Lemma convert_loop_scan fuel pre l dict st :
  st_i st = length pre -> length l <= fuel ->
  convert_loop fuel (pre ++ l) dict st
  = mkScan (length (pre ++ l)) (st_out st ++ events_out (scan dict l))
      (events_skipped (scan dict l) ∪ st_skipped st).
Proof.
  intros Hi Hl. rewrite convert_loop_run, (run_scan st_i act_convert) by done.
  rewrite foldl_act_convert, scan_per_position_length, Hi, length_app. done.
Qed.

Lemma plain_convert_loop_scan fuel pre l dict st :
  st_i st = length pre -> length l <= fuel ->
  Plain.convert_loop fuel (pre ++ l) dict st
  = mkScan (length (pre ++ l)) (st_out st ++ events_out (scan dict l))
      (events_skipped_plain (scan dict l) ∪ st_skipped st).
Proof.
  intros Hi Hl. rewrite plain_convert_loop_run, (run_scan st_i act_plain) by done.
  rewrite foldl_act_plain, scan_per_position_length, Hi, length_app. done.
Qed.

(** The loop has left through its guard when the fuel of [convert_chars]
    is spent: no turn is cut short. *)
Lemma convert_chars_exits chars dict :
  convert_step chars dict
    (convert_loop (length chars) chars dict (mkScan 0 [] ∅)) = None.
Proof.
  rewrite (convert_loop_scan _ [] chars) by done.
  unfold convert_step. simpl. by rewrite lookup_ge_None_2.
Qed.

Lemma plain_convert_chars_exits chars dict :
  Plain.convert_step chars dict
    (Plain.convert_loop (length chars) chars dict (mkScan 0 [] ∅)) = None.
Proof.
  rewrite (plain_convert_loop_scan _ [] chars) by done.
  unfold Plain.convert_step. simpl. by rewrite lookup_ge_None_2.
Qed.

Lemma convert_chars_scan chars dict :
  convert_chars chars dict
  = mkConverted (events_out (scan dict chars)) (events_skipped (scan dict chars)).
Proof.
  unfold convert_chars. rewrite (convert_loop_scan _ [] chars) by done.
  simpl. f_equal. set_solver.
Qed.

Lemma plain_convert_chars_scan chars dict :
  Plain.convert_chars chars dict
  = mkConverted (events_out (scan dict chars))
      (events_skipped_plain (scan dict chars)).
Proof.
  unfold Plain.convert_chars. rewrite (plain_convert_loop_scan _ [] chars) by done.
  simpl. f_equal. set_solver.
Qed.

(** ** Symbols of the alphabet *)

Lemma hiragana_inv ch :
  HIRAGANA_RE_test ch = true ->
  exists u, ch = [u] /\ (0x3041 <= u <= 0x3096)%N.
Proof.
  destruct ch as [|u [|]]; simpl; try done.
  intros [H1 H2]%andb_true_iff. exists u. split; [done|].
  apply N.leb_le in H1, H2. lia.
Qed.

Lemma hiragana_not_whitespace ch :
  HIRAGANA_RE_test ch = true -> isWhitespace ch = false.
Proof.
  intros (u & -> & Hu)%hiragana_inv.
  unfold isWhitespace, str_eqb, LF, CR, TAB, SPACE.
  repeat (rewrite bool_decide_eq_false_2; [|intros [=]; subst; lia]).
  done.
Qed.

Lemma Array_from_hiragana_pair a b :
  HIRAGANA_RE_test a = true -> HIRAGANA_RE_test b = true ->
  Array_from (a ++ b) = [a; b].
Proof.
  intros (u & -> & Hu)%hiragana_inv (v & -> & Hv)%hiragana_inv. simpl.
  replace (isHighSurrogate u) with false; [done|].
  symmetry. apply andb_false_iff. left. apply N.leb_gt. lia.
Qed.

(** ** Longest match first *)

(** C1: when the table has an entry for the pair [a b] and one for [a]
    alone, the turn at a cursor on [a] followed by [b] emits the value of
    the pair and moves the cursor by two; converting the text [a b] gives
    exactly the value of the pair, with nothing skipped. *)
Theorem longest_match_precedence
    (normalizeNFC : jsstring -> jsstring) (dict : Dict) (a b X Y : jsstring) :
  HIRAGANA_RE_test a = true -> HIRAGANA_RE_test b = true ->
  map2 dict !! (a ++ b) = Some X -> map1 dict !! a = Some Y ->
  normalizeNFC (a ++ b) = a ++ b ->
  (forall chars st,
      chars !! st_i st = Some a -> chars !! (st_i st + 1) = Some b ->
      convert_step chars dict st
      = Some (mkScan (st_i st + 2) (st_out st ++ X) (st_skipped st)))
  /\ convert normalizeNFC (a ++ b) dict = mkConverted X ∅.
Proof.
  intros Ha Hb H2 H1 Hn. split.
  - intros chars st Hi Hi1. unfold convert_step.
    rewrite Hi, Hi1, (hiragana_not_whitespace a Ha), Ha, Hb, H2. done.
  - unfold convert. rewrite Hn, Array_from_hiragana_pair by done.
    rewrite convert_chars_scan, scan_cons.
    rewrite (hiragana_not_whitespace a Ha), Ha, Hb, H2. simpl.
    unfold events_out, events_skipped. simpl.
    f_equal; rewrite ?app_nil_r; try done; set_solver.
Qed.

Lemma longest_match_precedence_witness :
  convert nfc_stable [HI_A; HI_I]
    (mkDict {[ [HI_A] := lit "Y" ]} {[ [HI_A; HI_I] := lit "X" ]})
  = mkConverted (lit "X") ∅.
Proof.
  apply (longest_match_precedence nfc_stable
           (mkDict {[ [HI_A] := lit "Y" ]} {[ [HI_A; HI_I] := lit "X" ]})
           [HI_A] [HI_I] (lit "X") (lit "Y")); reflexivity.
Defined.

(** C5: with an entry for [a] alone, none for the pair [a b] and none for
    [b], the turn at a cursor on [a] followed by [b] emits the value of [a]
    and leaves the cursor on [b]; converting the text [a b] gives the value
    of [a], and [b] is the one skipped symbol. *)
Theorem no_fallback_shift
    (normalizeNFC : jsstring -> jsstring) (dict : Dict) (a b Y : jsstring) :
  HIRAGANA_RE_test a = true -> HIRAGANA_RE_test b = true ->
  map1 dict !! a = Some Y -> map2 dict !! (a ++ b) = None ->
  map1 dict !! b = None ->
  normalizeNFC (a ++ b) = a ++ b ->
  (forall chars st,
      chars !! st_i st = Some a -> chars !! (st_i st + 1) = Some b ->
      convert_step chars dict st
      = Some (mkScan (st_i st + 1) (st_out st ++ Y) (st_skipped st)))
  /\ convert normalizeNFC (a ++ b) dict = mkConverted Y {[ b ]}.
Proof.
  intros Ha Hb H1 H2 Hb1 Hn. split.
  - intros chars st Hi Hi1. unfold convert_step.
    rewrite Hi, Hi1, (hiragana_not_whitespace a Ha), Ha, Hb, H2, H1. done.
  - unfold convert. rewrite Hn, Array_from_hiragana_pair by done.
    rewrite convert_chars_scan, !scan_cons.
    rewrite (hiragana_not_whitespace a Ha), (hiragana_not_whitespace b Hb).
    rewrite Ha, Hb, H2, H1, Hb1. simpl.
    unfold events_out, events_skipped. simpl.
    f_equal; rewrite ?app_nil_r; try done; set_solver.
Qed.

Lemma no_fallback_shift_witness :
  convert nfc_stable [HI_A; HI_I] (mkDict {[ [HI_A] := lit "Y" ]} ∅)
  = mkConverted (lit "Y") {[ [HI_I] ]}.
Proof.
  apply (no_fallback_shift nfc_stable (mkDict {[ [HI_A] := lit "Y" ]} ∅)
           [HI_A] [HI_I] (lit "Y")); reflexivity.
Defined.

(** ** Whitespace *)

Lemma whitespace_not_hiragana ch :
  isWhitespace ch = true -> HIRAGANA_RE_test ch = false.
Proof.
  intros H. destruct (HIRAGANA_RE_test ch) eqn:E; [|done].
  apply hiragana_not_whitespace in E. congruence.
Qed.

Lemma events_out_app evs1 evs2 :
  events_out (evs1 ++ evs2) = events_out evs1 ++ events_out evs2.
Proof. apply flat_map_app. Qed.

(** No pair reaches across a symbol that is not hiragana. *)
Lemma scan_app_break dict pre x post :
  HIRAGANA_RE_test x = false ->
  scan dict (pre ++ x :: post) = scan dict pre ++ scan dict (x :: post).
Proof.
  intros Hh.
  induction pre as [|y l IH1 IH2] using list_ind_pairs; [done|].
  rewrite <- app_comm_cons, !(scan_cons dict y).
  destruct l as [|next rest'].
  - change ([] ++ x :: post) with (x :: post) in *.
    cbn -[scan]. rewrite Hh. repeat case_match; done.
  - change (tail (next :: rest')) with rest' in IH2.
    rewrite <- app_comm_cons in *. cbn -[scan]. rewrite IH1, IH2.
    repeat case_match; done.
Qed.

Lemma scan_app_whitespace dict pre ws post :
  isWhitespace ws = true ->
  scan dict (pre ++ ws :: post) = scan dict pre ++ Passthrough ws :: scan dict post.
Proof.
  intros Hws. rewrite scan_app_break by by apply whitespace_not_hiragana.
  by rewrite (scan_cons dict ws), Hws.
Qed.

(** C6: a whitespace symbol at the cursor is appended to the output as it
    is and the cursor moves by one; in the output of the whole text it
    stands between the output of the symbols before it and the output of
    the symbols after it; and the text [a LF b] with [a] to 1 and [b] to 2
    converts to 1 LF 2. *)
Theorem whitespace_preserved
    (normalizeNFC : jsstring -> jsstring) (src : jsstring) (dict : Dict) :
  (forall chars st ws,
      chars !! st_i st = Some ws -> isWhitespace ws = true ->
      convert_step chars dict st
      = Some (mkScan (st_i st + 1) (st_out st ++ ws) (st_skipped st)))
  /\ (forall pre ws post,
        Array_from (normalizeNFC src) = pre ++ ws :: post ->
        isWhitespace ws = true ->
        out (convert normalizeNFC src dict)
        = out (convert_chars pre dict) ++ ws ++ out (convert_chars post dict))
  /\ (forall a b,
        HIRAGANA_RE_test a = true -> HIRAGANA_RE_test b = true ->
        src = a ++ [LF] ++ b -> normalizeNFC src = src ->
        map1 dict !! a = Some (lit "1") -> map1 dict !! b = Some (lit "2") ->
        out (convert normalizeNFC src dict) = lit "1" ++ [LF] ++ lit "2").
Proof.
  split; [|split].
  - intros chars st ws Hi Hws. unfold convert_step. by rewrite Hi, Hws.
  - intros pre ws post Hchars Hws. unfold convert.
    rewrite Hchars, !convert_chars_scan, scan_app_whitespace by done.
    simpl. by rewrite events_out_app.
  - intros a b Ha Hb -> Hn H1 H2. unfold convert. rewrite Hn.
    destruct (hiragana_inv a Ha) as (u & -> & Hu).
    destruct (hiragana_inv b Hb) as (v & -> & Hv).
    assert (Array_from ([u] ++ [LF] ++ [v]) = [[u]; [LF]; [v]]) as ->.
    { simpl. replace (isHighSurrogate u) with false; [done|].
      symmetry. apply andb_false_iff. left. apply N.leb_gt. lia. }
    rewrite convert_chars_scan, !scan_cons.
    rewrite (hiragana_not_whitespace _ Ha), (hiragana_not_whitespace _ Hb).
    rewrite Ha, Hb, H1, H2. done.
Qed.

Lemma whitespace_preserved_witness :
  out (convert nfc_stable [HI_A; LF; HI_I]
         (mkDict {[ [HI_A] := lit "1"; [HI_I] := lit "2" ]} ∅))
  = lit "1" ++ [LF] ++ lit "2".
Proof.
  apply (proj2 (proj2 (whitespace_preserved nfc_stable [HI_A; LF; HI_I]
           (mkDict {[ [HI_A] := lit "1"; [HI_I] := lit "2" ]} ∅)))
           [HI_A] [HI_I]); reflexivity.
Defined.

(** ** The empty table *)

Lemma scan_empty l :
  scan emptyDict l
  = map (fun ch => if isWhitespace ch then Passthrough ch
                   else if HIRAGANA_RE_test ch then Unregistered ch
                   else Foreign ch) l.
Proof.
  induction l as [|ch rest IH]; [done|].
  rewrite scan_cons, IH. simpl.
  destruct (isWhitespace ch); [done|].
  destruct (HIRAGANA_RE_test ch); [|done]. simpl.
  rewrite lookup_empty. destruct rest as [|next rest']; [done|].
  rewrite lookup_empty. by destruct (HIRAGANA_RE_test next).
Qed.

Lemma events_out_cons ev evs : events_out (ev :: evs) = emitted ev ++ events_out evs.
Proof. done. Qed.

Lemma events_skipped_cons ev evs :
  events_skipped (ev :: evs) = recorded ev ∪ events_skipped evs.
Proof. done. Qed.

Lemma events_skipped_plain_cons ev evs :
  events_skipped_plain (ev :: evs) = recorded_plain ev ∪ events_skipped_plain evs.
Proof. done. Qed.

Lemma scan_empty_out l :
  events_out (scan emptyDict l)
  = flat_map (fun ch => if isWhitespace ch then ch else []) l.
Proof.
  rewrite scan_empty.
  induction l as [|ch l IH]; [done|]. cbn [map flat_map].
  rewrite <- IH. by repeat case_match.
Qed.

Lemma scan_empty_skipped l :
  events_skipped (scan emptyDict l)
  = list_to_set (List.filter (fun ch => negb (isWhitespace ch)) l).
Proof.
  rewrite scan_empty.
  induction l as [|ch l IH]; [done|]. cbn [map List.filter].
  rewrite events_skipped_cons, IH.
  repeat case_match; cbn [recorded negb list_to_set]; set_solver.
Qed.

(** C7: against the empty table the output is the whitespace of the
    (normalised) text, in order, and the skipped set holds every other
    symbol; when all the symbols are hiragana the output is empty and the
    skipped set is the set of the symbols of the text. *)
Theorem empty_table (normalizeNFC : jsstring -> jsstring) (src : jsstring) :
  let chars := Array_from (normalizeNFC src) in
  let r := convert normalizeNFC src emptyDict in
  out r = flat_map (fun ch => if isWhitespace ch then ch else []) chars
  /\ skipped r
     = list_to_set (List.filter (fun ch => negb (isWhitespace ch)) chars)
  /\ (Forall (fun ch => HIRAGANA_RE_test ch = true) chars ->
      r = mkConverted [] (list_to_set chars)).
Proof.
  intros chars r. subst r. unfold convert. fold chars.
  rewrite convert_chars_scan, scan_empty_out, scan_empty_skipped.
  generalize chars. clear. intros l. cbn [out skipped].
  split; [done | split; [done|]].
  intros Hall. f_equal.
  - induction Hall as [|ch l Hch _ IH]; [done|]. cbn [flat_map].
    by rewrite (hiragana_not_whitespace ch Hch).
  - f_equal. induction Hall as [|ch l Hch _ IH]; [done|]. cbn [List.filter].
    by rewrite (hiragana_not_whitespace ch Hch), IH.
Qed.

Lemma empty_table_witness :
  convert nfc_stable [HI_A; HI_I; HI_A] emptyDict
  = mkConverted [] (list_to_set [[HI_A]; [HI_I]; [HI_A]]).
Proof.
  apply (proj2 (proj2 (empty_table nfc_stable [HI_A; HI_I; HI_A]))).
  repeat constructor.
Defined.

(** ** Symbols outside the alphabet, and the two revisions *)

Lemma scan_foreign dict x post :
  isWhitespace x = false -> HIRAGANA_RE_test x = false ->
  scan dict (x :: post) = Foreign x :: scan dict post.
Proof. intros Hw Hh. by rewrite scan_cons, Hw, Hh. Qed.

(** What the skipped sets hold. *)
Lemma elem_of_events_skipped ch evs :
  ch ∈ events_skipped evs <-> Foreign ch ∈ evs \/ Unregistered ch ∈ evs.
Proof.
  induction evs as [|ev evs IH].
  - unfold events_skipped. simpl. rewrite elem_of_empty, !elem_of_nil. tauto.
  - rewrite events_skipped_cons, elem_of_union, IH, !elem_of_cons.
    destruct ev; simpl; rewrite ?elem_of_empty, ?elem_of_singleton;
      naive_solver.
Qed.

Lemma elem_of_events_skipped_plain ch evs :
  ch ∈ events_skipped_plain evs <-> Unregistered ch ∈ evs.
Proof.
  induction evs as [|ev evs IH].
  - unfold events_skipped_plain. simpl. rewrite elem_of_empty, !elem_of_nil. tauto.
  - rewrite events_skipped_plain_cons, elem_of_union, IH, !elem_of_cons.
    destruct ev; simpl; rewrite ?elem_of_empty, ?elem_of_singleton;
      naive_solver.
Qed.

Lemma scan_ok dict l : Forall event_ok (scan dict l).
Proof.
  induction l as [|ch rest IH1 IH2] using list_ind_pairs; [constructor|].
  rewrite scan_cons.
  destruct (isWhitespace ch) eqn:Hw; [by constructor|].
  destruct (HIRAGANA_RE_test ch) eqn:Hh; [|by constructor].
  destruct rest as [|next rest']; cbn -[scan] in *;
    repeat case_match; constructor; simpl; auto.
Qed.

(** C4, as amended: at a cursor on a symbol that is neither whitespace nor
    hiragana, [convert] (lines 57-91) adds the symbol to [skipped], leaves
    the output as it is and moves the cursor by one; the second revision
    (lines 246-287) leaves output and [skipped] as they are and moves the
    cursor by one.  Over a whole text: the symbol is in the skipped set of
    [convert], the output of either revision is the output of the symbols
    before it followed by the output of the symbols after it, and the
    skipped set of the second revision holds hiragana only. *)
Theorem foreign_symbol_dropped
    (normalizeNFC : jsstring -> jsstring) (src : jsstring) (dict : Dict) :
  (forall chars st ch,
      chars !! st_i st = Some ch ->
      isWhitespace ch = false -> HIRAGANA_RE_test ch = false ->
      convert_step chars dict st
      = Some (mkScan (st_i st + 1) (st_out st) ({[ ch ]} ∪ st_skipped st))
      /\ Plain.convert_step chars dict st
         = Some (mkScan (st_i st + 1) (st_out st) (st_skipped st)))
  /\ (forall pre ch post,
        Array_from (normalizeNFC src) = pre ++ ch :: post ->
        isWhitespace ch = false -> HIRAGANA_RE_test ch = false ->
        ch ∈ skipped (convert normalizeNFC src dict)
        /\ out (convert normalizeNFC src dict)
           = out (convert_chars pre dict) ++ out (convert_chars post dict)
        /\ out (Plain.convert normalizeNFC src dict)
           = out (Plain.convert_chars pre dict)
             ++ out (Plain.convert_chars post dict))
  /\ (forall ch,
        ch ∈ skipped (Plain.convert normalizeNFC src dict) ->
        HIRAGANA_RE_test ch = true).
Proof.
  split; [|split].
  - intros chars st ch Hi Hw Hh. unfold convert_step, Plain.convert_step.
    by rewrite Hi, Hw, Hh.
  - intros pre ch post Hchars Hw Hh. unfold convert, Plain.convert.
    rewrite Hchars, !convert_chars_scan, !plain_convert_chars_scan.
    rewrite scan_app_break, scan_foreign by done. cbn [out skipped].
    rewrite events_out_app, events_out_cons. repeat split; [|done..].
    apply elem_of_events_skipped. left. apply elem_of_app. right. constructor.
  - intros ch. unfold Plain.convert.
    rewrite plain_convert_chars_scan. cbn [skipped].
    rewrite elem_of_events_skipped_plain. intros Hin.
    pose proof (scan_ok dict (Array_from (normalizeNFC src))) as Hok.
    rewrite Forall_forall in Hok. apply (Hok _ Hin).
Qed.

Lemma foreign_symbol_dropped_witness :
  [88%N] ∈ skipped (convert nfc_stable [HI_A; 88%N; HI_I] emptyDict).
Proof.
  apply (proj1 (proj2 (foreign_symbol_dropped nfc_stable [HI_A; 88%N; HI_I] emptyDict))
           [[HI_A]] [88%N] [[HI_I]]); reflexivity.
Defined.

(** The second revision on the text X: the symbol is neither whitespace nor
    hiragana, and it is not in the skipped set. *)
Lemma plain_convert_does_not_record :
  on_normalized [88%N] (fun normalizeNFC =>
    Array_from (normalizeNFC [88%N]) = [[88%N]]
    /\ isWhitespace [88%N] = false /\ HIRAGANA_RE_test [88%N] = false
    /\ [88%N] ∉ skipped (Plain.convert normalizeNFC [88%N] emptyDict)).
Proof.
  intros nfc Hn. unfold Plain.convert. rewrite Hn.
  repeat split. vm_compute. set_solver.
Qed.

(** C10, as amended: the two revisions of [convert] return the same output,
    and the skipped set of the second is the skipped set of the first
    restricted to hiragana. *)
Theorem revisions_agree_on_hiragana
    (normalizeNFC : jsstring -> jsstring) (src : jsstring) (dict : Dict) :
  out (convert normalizeNFC src dict) = out (Plain.convert normalizeNFC src dict)
  /\ forall ch,
       ch ∈ skipped (Plain.convert normalizeNFC src dict)
       <-> ch ∈ skipped (convert normalizeNFC src dict)
           /\ HIRAGANA_RE_test ch = true.
Proof.
  unfold convert, Plain.convert.
  rewrite convert_chars_scan, plain_convert_chars_scan. cbn [out skipped].
  split; [done|]. intros ch.
  rewrite elem_of_events_skipped, elem_of_events_skipped_plain.
  pose proof (scan_ok dict (Array_from (normalizeNFC src))) as Hok.
  rewrite Forall_forall in Hok. split.
  - intros Hin. split; [by right | apply (Hok _ Hin)].
  - intros [[Hin|Hin] Hh]; [|done].
    destruct (Hok _ Hin) as [_ Hf]. congruence.
Qed.

(** On the text X the first revision skips X, the second skips nothing. *)
Lemma revisions_differ_on_foreign :
  on_normalized [88%N] (fun normalizeNFC =>
    convert normalizeNFC [88%N] emptyDict = mkConverted [] {[ [88%N] ]}
    /\ Plain.convert normalizeNFC [88%N] emptyDict = mkConverted [] ∅
    /\ convert normalizeNFC [88%N] emptyDict
       <> Plain.convert normalizeNFC [88%N] emptyDict).
Proof.
  intros nfc Hn. unfold convert, Plain.convert. rewrite Hn.
  split; [by vm_compute|]. split; [by vm_compute|].
  vm_compute. intros [=].
Qed.

(** ** Classification and conversion *)

Lemma array_set_middle {A} (done todo : list (option A)) (old : option A) (x : A) :
  array_set (length done) x (done ++ old :: todo) = done ++ Some x :: todo.
Proof.
  unfold array_set. rewrite decide_True by (rewrite length_app; simpl; lia).
  by rewrite insert_app_r_alt, Nat.sub_diag by lia.
Qed.

Lemma foldl_act_mark evs done todo :
  length (per_position evs) <= length todo ->
  foldl (fun s ev => act_mark ev s) (mkMark (length done) (done ++ todo)) evs
  = mkMark (length done + length (per_position evs))
      (done ++ (Some ∘ tag_of <$> per_position evs)
            ++ drop (length (per_position evs)) todo).
Proof.
  revert done todo. induction evs as [|ev evs IH]; intros done todo Hlen.
  - simpl. f_equal. lia.
  - rewrite per_position_cons, length_app, length_replicate in *.
    cbn [foldl]. unfold act_mark at 2. cbn [hl_i hl_mark].
    destruct todo as [|x todo]; [pose proof (width_pos ev); simpl in Hlen; lia|].
    assert (forall t,
      foldl (fun s ev => act_mark ev s)
        (mkMark (length done + 1) (done ++ Some t :: todo)) evs
      = mkMark (length done + (1 + length (per_position evs)))
          (done ++ (Some t :: (Some ∘ tag_of <$> per_position evs))
                ++ drop (length (per_position evs)) todo)) as Hone.
    { intros t. simpl in Hlen.
      replace (done ++ Some t :: todo) with ((done ++ [Some t]) ++ todo)
        by (by rewrite <- app_assoc).
      replace (length done + 1) with (length (done ++ [Some t]))
        by (rewrite length_app; simpl; lia).
      rewrite IH by (pose proof (width_pos ev); lia).
      rewrite length_app, <- !app_assoc. simpl. f_equal. lia. }
    destruct ev; cbn [width tag_of replicate app fmap list_fmap length drop compose] in *;
      try (rewrite array_set_middle; apply Hone).
    destruct todo as [|y todo]; [simpl in Hlen; lia|].
    rewrite array_set_middle.
    replace (done ++ Some good :: y :: todo)
      with ((done ++ [Some good]) ++ y :: todo) by (by rewrite <- app_assoc).
    replace (length done + 1) with (length (done ++ [Some good]))
      by (rewrite length_app; simpl; lia).
    rewrite array_set_middle.
    replace ((done ++ [Some good]) ++ Some good :: todo)
      with ((done ++ [Some good; Some good]) ++ todo)
      by (by rewrite <- !app_assoc).
    replace (length done + 2) with (length (done ++ [Some good; Some good]))
      by (rewrite length_app; simpl; lia).
    rewrite IH by (simpl in Hlen; lia).
    rewrite length_app, <- !app_assoc. simpl. f_equal. lia.
Qed.

(** The classification loop, too, has left through its guard when its
    fuel is spent. *)
Lemma highlight_marks_exits chars dict :
  highlight_step chars dict
    (highlight_loop (length chars) chars dict
       (mkMark 0 (replicate (length chars) (Some good)))) = None.
Proof.
  rewrite highlight_loop_run, (run_scan hl_i act_mark (fun _ _ => eq_refl) _ [] chars)
    by done.
  pose proof (scan_per_position_length dict chars) as Hlen.
  rewrite (foldl_act_mark _ [] (replicate (length chars) (Some good)))
    by (rewrite length_replicate; lia).
  unfold highlight_step. cbn [hl_i length]. rewrite Hlen.
  by rewrite lookup_ge_None_2.
Qed.

Lemma highlight_marks_scan chars dict :
  highlight_marks chars dict = Some ∘ tag_of <$> per_position (scan dict chars).
Proof.
  unfold highlight_marks.
  rewrite highlight_loop_run, (run_scan hl_i act_mark (fun _ _ => eq_refl) _ [] chars)
    by done.
  pose proof (scan_per_position_length dict chars) as Hlen.
  rewrite (foldl_act_mark _ [] (replicate (length chars) (Some good)))
    by (rewrite length_replicate; lia).
  cbn [hl_mark app]. rewrite drop_ge by (rewrite length_replicate; lia).
  apply app_nil_r.
Qed.

Lemma convert_trace_scan fuel pre l dict st :
  st_i st = length pre -> length l <= fuel ->
  convert_trace fuel (pre ++ l) dict st = positions (length pre) (scan dict l).
Proof.
  revert pre l st. induction fuel as [|fuel IH]; intros pre l st Hc Hl.
  - destruct l; [done | simpl in Hl; lia].
  - cbn [convert_trace]. rewrite convert_step_event, Hc, convert_event_app.
    rewrite (scan_unfold dict l).
    destruct (convert_event l dict 0) as [ev|] eqn:E; [|done].
    pose proof (convert_event_width _ _ _ E) as Hw.
    pose proof (width_pos ev) as Hp.
    cbn [fmap option_fmap option_map positions]. f_equal.
    rewrite <- (take_drop (width ev) l) at 1. rewrite app_assoc.
    rewrite IH.
    + f_equal. rewrite length_app, length_take. lia.
    + cbn [act_convert st_i]. rewrite Hc, length_app, length_take. lia.
    + rewrite length_drop. lia.
Qed.

Lemma positions_snd start evs : snd <$> positions start evs = evs.
Proof.
  revert start. induction evs as [|ev evs IH]; intros start; [done|].
  simpl. by rewrite IH.
Qed.

Lemma positions_find p start evs :
  start <= p ->
  (fun hit => snd (snd hit)) <$>
    list_find (fun t => fst t <= p < fst t + width (snd t)) (positions start evs)
  = per_position evs !! (p - start).
Proof.
  revert start. induction evs as [|ev evs IH]; intros start Hle; [done|].
  rewrite per_position_cons. cbn [positions list_find fst snd].
  pose proof (width_pos ev) as Hp.
  case_decide as Hin.
  - simpl. rewrite lookup_app_l by (rewrite length_replicate; lia).
    symmetry. apply lookup_replicate_2. lia.
  - rewrite lookup_app_r by (rewrite length_replicate; lia).
    rewrite length_replicate, <- option_fmap_compose.
    replace (p - start - width ev) with (p - (start + width ev)) by lia.
    rewrite <- IH by lia. by destruct (list_find _ _) as [[? [? ?]]|].
Qed.

Lemma convert_decision_scan chars dict p :
  convert_decision chars dict p = per_position (scan dict chars) !! p.
Proof.
  unfold convert_decision.
  rewrite (convert_trace_scan _ [] chars) by done.
  cbn [length]. rewrite positions_find by lia. f_equal. lia.
Qed.

(** C2: the tags of the classification loop are those owed to the decisions
    of [convert]'s loop.  The turns of [convert]'s loop account for its
    result; [mark] has one cell per symbol; every position of the text, and
    no other, is consumed by one turn of [convert]; and a position is tagged
    good exactly when that turn was a successful lookup of one or two
    symbols, space exactly when it copied whitespace, bad exactly when it
    recorded a non-match. *)
Theorem highlight_agrees_with_convert
    (normalizeNFC : jsstring -> jsstring) (src : jsstring) (dict : Dict) :
  let chars := Array_from (normalizeNFC src) in
  let mark := highlight_marks chars dict in
  let turns := snd <$> convert_trace (length chars) chars dict (mkScan 0 [] ∅) in
  convert normalizeNFC src dict
  = mkConverted (events_out turns) (events_skipped turns)
  /\ length mark = length chars
  /\ forall p,
       (is_Some (convert_decision chars dict p) <-> p < length chars)
       /\ (mark !! p = Some (Some good)
           <-> exists ev, convert_decision chars dict p = Some ev
                          /\ is_hit ev = true)
       /\ (mark !! p = Some (Some space)
           <-> exists ev, convert_decision chars dict p = Some ev
                          /\ is_passthrough ev = true)
       /\ (mark !! p = Some (Some bad)
           <-> exists ev, convert_decision chars dict p = Some ev
                          /\ is_miss ev = true).
Proof.
  intros chars mark turns. subst mark turns.
  rewrite highlight_marks_scan.
  pose proof (scan_per_position_length dict chars) as Hlen.
  split.
  { rewrite (convert_trace_scan _ [] chars), positions_snd by done.
    apply convert_chars_scan. }
  split; [by rewrite length_fmap|].
  intros p. rewrite convert_decision_scan.
  split; [by rewrite lookup_lt_is_Some, Hlen|].
  rewrite list_lookup_fmap.
  destruct (per_position (scan dict chars) !! p) as [ev|]; simpl.
  - repeat split; intros H.
    all: try (exists ev; split; [done|]; by destruct ev).
    all: destruct H as (ev' & [= <-] & H); by destruct ev.
  - repeat split; intros H; try done; by destruct H as (? & ? & _).
Qed.

(** ** The parser *)

Lemma parse_line_entry normalizeNFC d raw :
  parse_line normalizeNFC d raw
  = match line_entry normalizeNFC raw with
    | Some e => table_set d e
    | None => d
    end.
Proof.
  unfold parse_line, line_entry.
  destruct (bool_decide (trimEnd raw = []) || startsWith HASH (trimEnd raw)); [done|].
  destruct (indexOf TAB (trimEnd raw)) as [tab|]; [|done].
  destruct (Array_from _) as [|k0 [|k1 [|]]]; try done.
  - by destruct (HIRAGANA_RE_test k0).
  - by destruct (HIRAGANA_RE_test k0 && HIRAGANA_RE_test k1).
Qed.

(** [trimEnd] and [indexOf] on a line put together from its parts. *)
Lemma trimStart_app_space w s :
  Forall (fun u => isTrimSpace u = true) w -> trimStart (w ++ s) = trimStart s.
Proof. induction 1 as [|u w Hu _ IH]; [done|]. simpl. by rewrite Hu. Qed.

Lemma trimEnd_app_space s w :
  Forall (fun u => isTrimSpace u = true) w -> trimEnd (s ++ w) = trimEnd s.
Proof.
  intros Hw. unfold trimEnd. rewrite rev_app_distr, trimStart_app_space; [done|].
  apply Forall_forall. intros u Hu%list_elem_of_In%in_rev%list_elem_of_In.
  revert u Hu. by apply Forall_forall.
Qed.

Lemma trimEnd_snoc s u : isTrimSpace u = false -> trimEnd (s ++ [u]) = s ++ [u].
Proof.
  intros Hu. unfold trimEnd. rewrite rev_app_distr. simpl. rewrite Hu.
  change (u :: rev s) with (rev [u] ++ rev s).
  by rewrite <- rev_app_distr, rev_involutive.
Qed.

Lemma trimEnd_blank s :
  Forall (fun u => isTrimSpace u = true) s -> trimEnd s = [].
Proof.
  intros Hs. rewrite <- (app_nil_l s), trimEnd_app_space; done.
Qed.

(** The trimmed line is the raw line without a run of whitespace at its end,
    and it does not end with whitespace. *)
Lemma trimEnd_spec s :
  exists w, s = trimEnd s ++ w
            /\ Forall (fun u => isTrimSpace u = true) w
            /\ forall u, last (trimEnd s) = Some u -> isTrimSpace u = false.
Proof.
  induction s as [|u s IH] using rev_ind.
  - exists []. repeat split; [constructor | done].
  - destruct (isTrimSpace u) eqn:Hu.
    + destruct IH as (w & Hs & Hw & Hlast).
      exists (w ++ [u]). rewrite trimEnd_app_space by (by repeat constructor).
      split; [by rewrite app_assoc, <- Hs|].
      split; [|done]. apply Forall_app. split; [done | by repeat constructor].
    + exists []. rewrite trimEnd_snoc by done. rewrite app_nil_r.
      split; [done|]. split; [constructor|].
      intros u'. rewrite last_snoc. by intros [= <-].
Qed.

Lemma indexOf_Some c s n :
  indexOf c s = Some n <->
  exists a b, s = a ++ c :: b /\ (c ∉ a) /\ length a = n.
Proof.
  revert n. induction s as [|u s IH]; intros n; simpl.
  - split; [done|]. intros (a & b & H & _). by destruct a.
  - destruct (N.eqb_spec u c) as [->|Hne].
    + split.
      * intros [= <-]. exists [], s. repeat split. apply not_elem_of_nil.
      * intros (a & b & H & Hni & <-). destruct a as [|x a]; [done|].
        simplify_eq/=. exfalso. apply Hni. left.
    + destruct (indexOf c s) as [m|] eqn:E; simpl.
      * split.
        -- intros [= <-]. destruct (proj1 (IH m) eq_refl) as (a & b & -> & Hni & <-).
           exists (u :: a), b. repeat split. rewrite not_elem_of_cons. done.
        -- intros (a & b & H & Hni & <-). destruct a as [|x a]; simplify_eq/=.
           f_equal. symmetry. f_equal.
           apply not_elem_of_cons in Hni as [_ Hni].
           assert (Some m = Some (length a)) as [= ->]; [|done].
           apply IH. eauto.
      * split; [done|]. intros (a & b & H & Hni & <-).
        destruct a as [|x a]; simplify_eq/=.
        apply not_elem_of_cons in Hni as [_ Hni].
        assert (None = Some (length a)) as [=]. apply IH. eauto.
Qed.

(** The line [keypart TAB body u trailing], where [u] is not whitespace and
    [trailing] is: the key is read from [keypart], the value is [body u]. *)
Lemma line_entry_parts normalizeNFC keypart body u trailing :
  TAB ∉ keypart -> startsWith HASH keypart = false ->
  isTrimSpace u = false ->
  Forall (fun w => isTrimSpace w = true) trailing ->
  line_entry normalizeNFC (keypart ++ [TAB] ++ body ++ [u] ++ trailing)
  = match Array_from (normalizeNFC (trim keypart)) with
    | [k] =>
        if HIRAGANA_RE_test k
        then Some (mkEntry OneSymbol k (body ++ [u])) else None
    | [k0; k1] =>
        if HIRAGANA_RE_test k0 && HIRAGANA_RE_test k1
        then Some (mkEntry TwoSymbol (k0 ++ k1) (body ++ [u])) else None
    | _ => None
    end.
Proof.
  intros Htab Hhash Hu Htr. unfold line_entry.
  assert (trimEnd (keypart ++ [TAB] ++ body ++ [u] ++ trailing)
          = keypart ++ TAB :: body ++ [u]) as ->.
  { rewrite !app_assoc, trimEnd_app_space by done.
    rewrite trimEnd_snoc by done. by rewrite <- !app_assoc. }
  assert (indexOf TAB (keypart ++ TAB :: body ++ [u]) = Some (length keypart)) as ->.
  { apply indexOf_Some. eauto. }
  rewrite take_app_length.
  replace (drop (length keypart + 1) (keypart ++ TAB :: body ++ [u]))
    with (body ++ [u]).
  2:{ rewrite drop_app_ge, Nat.add_sub' by lia. done. }
  replace (bool_decide (keypart ++ TAB :: body ++ [u] = [])
           || startsWith HASH (keypart ++ TAB :: body ++ [u])) with false; [done|].
  symmetry. apply orb_false_iff. split.
  - apply bool_decide_eq_false. by destruct keypart.
  - destruct keypart; [done|]. exact Hhash.
Qed.

(** Lines that are passed over. *)
Lemma line_entry_blank normalizeNFC raw :
  Forall (fun u => isTrimSpace u = true) raw -> line_entry normalizeNFC raw = None.
Proof. intros H. unfold line_entry. by rewrite trimEnd_blank. Qed.

Lemma trimEnd_cons_nonspace u s :
  isTrimSpace u = false -> exists s', trimEnd (u :: s) = u :: s'.
Proof.
  intros Hu. destruct (trimEnd_spec (u :: s)) as (w & Hs & Hw & _).
  destruct (trimEnd (u :: s)) as [|x s'] eqn:E.
  - simpl in Hs. subst w. apply Forall_cons in Hw as [Hw _]. congruence.
  - simplify_eq/=. eauto.
Qed.

Lemma line_entry_comment normalizeNFC raw :
  startsWith HASH raw = true -> line_entry normalizeNFC raw = None.
Proof.
  intros H. unfold line_entry. destruct raw as [|u s]; [done|].
  simpl in H. apply N.eqb_eq in H as ->.
  destruct (trimEnd_cons_nonspace HASH s eq_refl) as (s' & ->).
  by rewrite orb_true_r.
Qed.

Lemma line_entry_no_tab normalizeNFC raw :
  TAB ∉ raw -> line_entry normalizeNFC raw = None.
Proof.
  intros H. unfold line_entry.
  destruct (_ || _); [done|].
  destruct (indexOf TAB (trimEnd raw)) as [n|] eqn:E; [|done].
  apply indexOf_Some in E as (a & b & E & _).
  destruct (trimEnd_spec raw) as (w & Hs & _).
  exfalso. apply H. rewrite Hs, E. set_solver.
Qed.

Lemma line_entry_key normalizeNFC raw e :
  line_entry normalizeNFC raw = Some e ->
  exists key, line_key normalizeNFC raw = Some key
    /\ Forall (fun ch => HIRAGANA_RE_test ch = true) key
    /\ match e_class e with
       | OneSymbol => key = [e_key e]
       | TwoSymbol => exists k0 k1, key = [k0; k1] /\ e_key e = k0 ++ k1
       end.
Proof.
  unfold line_entry, line_key.
  destruct (_ || _); [done|].
  destruct (indexOf TAB (trimEnd raw)) as [tab|]; [|done].
  destruct (Array_from _) as [|k0 [|k1 [|]]]; try done.
  - destruct (HIRAGANA_RE_test k0) eqn:H0; [|done]. intros [= <-].
    eexists. split; [done|]. split; [by repeat constructor | done].
  - destruct (HIRAGANA_RE_test k0) eqn:H0; [|done].
    destruct (HIRAGANA_RE_test k1) eqn:H1; [|done]. intros [= <-].
    eexists. split; [done|]. split; [by repeat constructor | simpl; eauto].
Qed.

(** The value of an entry is what follows the first tab of the trimmed
    line; it is not empty and does not end with whitespace. *)
Lemma line_entry_value normalizeNFC raw e :
  line_entry normalizeNFC raw = Some e ->
  exists tab,
    indexOf TAB (trimEnd raw) = Some tab
    /\ e_value e = drop (tab + 1) (trimEnd raw)
    /\ exists u, last (e_value e) = Some u /\ isTrimSpace u = false.
Proof.
  unfold line_entry.
  destruct (_ || _); [done|].
  destruct (indexOf TAB (trimEnd raw)) as [tab|] eqn:Etab; [|done].
  intros He. exists tab. split; [done|].
  assert (e_value e = drop (tab + 1) (trimEnd raw)) as Hv.
  { destruct (Array_from _) as [|k0 [|k1 [|]]]; try done.
    - destruct (HIRAGANA_RE_test k0); by simplify_eq.
    - destruct (_ && _); by simplify_eq. }
  split; [done|]. rewrite Hv.
  apply indexOf_Some in Etab as (a & b & E & _ & <-).
  destruct (trimEnd_spec raw) as (w & _ & _ & Hlast).
  rewrite E in *. rewrite drop_app_ge, Nat.add_sub' by lia. simpl.
  destruct b as [|x b _] using rev_ind.
  - by pose proof (Hlast TAB (last_snoc _ _)).
  - exists x. rewrite drop_0, last_snoc. split; [done|]. apply Hlast.
    change (a ++ TAB :: b ++ [x]) with (a ++ (TAB :: b) ++ [x]).
    by rewrite app_assoc, last_snoc.
Qed.

(** ** The table after all the lines *)

Lemma table_get_set d e c k :
  table_get (table_set d e) c k
  = if decide (c = e_class e /\ k = e_key e) then Some (e_value e)
    else table_get d c k.
Proof.
  destruct e as [ec ek ev]. unfold table_set, table_get. cbn [e_class e_key e_value].
  case_decide as H.
  - destruct H as [-> ->]. destruct ec; simpl; apply lookup_insert_eq.
  - destruct c, ec; simpl; try done; apply lookup_insert_ne; intros ->; by apply H.
Qed.

(** Every binding of the table was set by one of the lines. *)
Lemma parse_fold_get normalizeNFC lines d0 c k v :
  table_get (foldl (parse_line normalizeNFC) d0 lines) c k = Some v ->
  table_get d0 c k = Some v
  \/ exists raw, raw ∈ lines /\ line_entry normalizeNFC raw = Some (mkEntry c k v).
Proof.
  induction lines as [|raw lines IH] using rev_ind; [by left|].
  rewrite foldl_app. simpl. rewrite parse_line_entry.
  destruct (line_entry normalizeNFC raw) as [e|] eqn:E.
  - rewrite table_get_set. case_decide as H.
    + intros [= <-]. right. exists raw. split; [set_solver|].
      destruct H as [-> ->]. by destruct e.
    + intros [?|(r & ? & ?)]%IH; [by left|]. right. exists r. set_solver.
  - intros [?|(r & ? & ?)]%IH; [by left|]. right. exists r. set_solver.
Qed.

(** Lines without an entry for a key leave its binding as it is. *)
Lemma parse_fold_other normalizeNFC lines d c k :
  (forall raw v, raw ∈ lines ->
     line_entry normalizeNFC raw <> Some (mkEntry c k v)) ->
  table_get (foldl (parse_line normalizeNFC) d lines) c k = table_get d c k.
Proof.
  revert d. induction lines as [|raw lines IH]; intros d Hno; [done|].
  simpl. rewrite IH by (intros r v' Hr; apply Hno; set_solver).
  rewrite parse_line_entry.
  destruct (line_entry normalizeNFC raw) as [e|] eqn:E; [|done].
  rewrite table_get_set. case_decide as H; [|done].
  exfalso. apply (Hno raw (e_value e)); [set_solver|].
  destruct H as [-> ->]. by destruct e.
Qed.

(** The last line with an entry for a key decides its binding. *)
Lemma parse_fold_last normalizeNFC pre raw after d c k v :
  line_entry normalizeNFC raw = Some (mkEntry c k v) ->
  (forall r v', r ∈ after ->
     line_entry normalizeNFC r <> Some (mkEntry c k v')) ->
  table_get (foldl (parse_line normalizeNFC) d (pre ++ raw :: after)) c k = Some v.
Proof.
  intros He Hno. rewrite foldl_app. simpl.
  rewrite parse_fold_other by done.
  rewrite parse_line_entry, He, table_get_set. simpl.
  by rewrite decide_True.
Qed.

Lemma parse_line_parts normalizeNFC d keypart body u trailing :
  TAB ∉ keypart -> startsWith HASH keypart = false ->
  isTrimSpace u = false ->
  Forall (fun w => isTrimSpace w = true) trailing ->
  parse_line normalizeNFC d (keypart ++ [TAB] ++ body ++ [u] ++ trailing)
  = match Array_from (normalizeNFC (trim keypart)) with
    | [k] =>
        if HIRAGANA_RE_test k
        then mkDict (<[ k := body ++ [u] ]> (map1 d)) (map2 d) else d
    | [k0; k1] =>
        if HIRAGANA_RE_test k0 && HIRAGANA_RE_test k1
        then mkDict (map1 d) (<[ k0 ++ k1 := body ++ [u] ]> (map2 d)) else d
    | _ => d
    end.
Proof.
  intros Htab Hhash Hu Htr.
  rewrite parse_line_entry, line_entry_parts by done.
  destruct (Array_from _) as [|k0 [|k1 [|]]]; try done.
  - by destruct (HIRAGANA_RE_test k0).
  - by destruct (_ && _).
Qed.

Lemma parsed_binding normalizeNFC text c k v :
  table_get (parseDictTsv normalizeNFC text) c k = Some v ->
  exists raw, raw ∈ split_lines text
    /\ line_entry normalizeNFC raw = Some (mkEntry c k v).
Proof.
  unfold parseDictTsv. intros [Hget|Hraw]%parse_fold_get; [by destruct c | done].
Qed.

(** C3, as amended: the value a line stores is what follows the first tab
    of the line after [trimEnd].  On a line [keypart TAB body u trailing],
    with no tab in [keypart], [u] not whitespace and [trailing] whitespace,
    the value stored is [body u]: whitespace at its start and inside it is
    kept, the whitespace after it is not.  Every value of a parsed table is
    such a rest of a trimmed line, so it is not empty and does not end with
    whitespace. *)
Theorem value_follows_first_tab (normalizeNFC : jsstring -> jsstring) :
  (forall d keypart body u trailing,
      TAB ∉ keypart -> startsWith HASH keypart = false ->
      isTrimSpace u = false ->
      Forall (fun w => isTrimSpace w = true) trailing ->
      parse_line normalizeNFC d (keypart ++ [TAB] ++ body ++ [u] ++ trailing)
      = match Array_from (normalizeNFC (trim keypart)) with
        | [k] =>
            if HIRAGANA_RE_test k
            then mkDict (<[ k := body ++ [u] ]> (map1 d)) (map2 d) else d
        | [k0; k1] =>
            if HIRAGANA_RE_test k0 && HIRAGANA_RE_test k1
            then mkDict (map1 d) (<[ k0 ++ k1 := body ++ [u] ]> (map2 d)) else d
        | _ => d
        end)
  /\ (forall text c k v,
        table_get (parseDictTsv normalizeNFC text) c k = Some v ->
        exists raw tab,
          raw ∈ split_lines text
          /\ indexOf TAB (trimEnd raw) = Some tab
          /\ v = drop (tab + 1) (trimEnd raw)
          /\ exists u, last v = Some u /\ isTrimSpace u = false).
Proof.
  split; [apply parse_line_parts|].
  intros text c k v (raw & Hin & He)%parsed_binding.
  apply line_entry_value in He as (tab & Htab & Hv & Hlast).
  exists raw, tab. done.
Qed.

Lemma value_follows_first_tab_witness :
  parse_line nfc_stable emptyDict
    ([HI_A] ++ [TAB] ++ [SPACE; 120%N] ++ [121%N] ++ [SPACE; SPACE])
  = mkDict {[ [HI_A] := [SPACE; 120%N; 121%N] ]} ∅.
Proof.
  rewrite (proj1 (value_follows_first_tab nfc_stable) emptyDict
             [HI_A] [SPACE; 120%N] 121%N [SPACE; SPACE]).
  - reflexivity.
  - vm_compute. set_solver.
  - reflexivity.
  - reflexivity.
  - repeat constructor.
Defined.

(** The line "a TAB X SPACE" stores X without the space, and no text at
    all makes the parser store a value that ends with a space. *)
Lemma trailing_space_not_stored :
  on_normalized [HI_A] (fun normalizeNFC =>
    map1 (parseDictTsv normalizeNFC [HI_A; TAB; 88%N; SPACE]) !! [HI_A]
    = Some [88%N])
  /\ ~ (exists normalizeNFC text c k v,
          table_get (parseDictTsv normalizeNFC text) c k = Some v
          /\ last v = Some SPACE).
Proof.
  split.
  - intros nfc Hn.
    change (parseDictTsv nfc [HI_A; TAB; 88%N; SPACE])
      with (parse_line nfc emptyDict ([HI_A] ++ [TAB] ++ [] ++ [88%N] ++ [SPACE])).
    rewrite parse_line_parts; [| | done | done | by repeat constructor].
    + change (trim [HI_A]) with [HI_A]. rewrite Hn. simpl. apply lookup_insert_eq.
    + vm_compute. set_solver.
  - intros (nfc & text & c & k & v & Hget & Hlast).
    apply parsed_binding in Hget as (raw & _ & He).
    apply line_entry_value in He as (_ & _ & _ & u & Hu & Hsp).
    simpl in Hu. rewrite Hlast in Hu. by simplify_eq.
Qed.

(** C8: when two lines of the text have an entry for the same key in the
    same map and no line after the second has one, the table binds the key
    to the value of the second line; the duplicate is no error
    ([parseDictTsv] is total). *)
Theorem duplicate_key_last_wins
    (normalizeNFC : jsstring -> jsstring) (text : jsstring)
    (before mid after : list jsstring) (raw1 raw2 : jsstring)
    (c : keyClass) (k v1 v2 : jsstring) :
  split_lines text = before ++ raw1 :: mid ++ raw2 :: after ->
  line_entry normalizeNFC raw1 = Some (mkEntry c k v1) ->
  line_entry normalizeNFC raw2 = Some (mkEntry c k v2) ->
  (forall raw v, raw ∈ after ->
     line_entry normalizeNFC raw <> Some (mkEntry c k v)) ->
  table_get (parseDictTsv normalizeNFC text) c k = Some v2.
Proof.
  intros Hlines _ H2 Hno. unfold parseDictTsv. rewrite Hlines.
  replace (before ++ raw1 :: mid ++ raw2 :: after)
    with ((before ++ raw1 :: mid) ++ raw2 :: after)
    by (by rewrite <- app_assoc).
  by apply parse_fold_last.
Qed.

Lemma duplicate_key_last_wins_witness :
  table_get
    (parseDictTsv nfc_stable
       ([HI_A; TAB; 88%N; LF; HI_I; TAB; 90%N; LF; HI_A; TAB; 89%N]))
    OneSymbol [HI_A]
  = Some [89%N].
Proof.
  apply (duplicate_key_last_wins nfc_stable _
           [] [[HI_I; TAB; 90%N]] [] [HI_A; TAB; 88%N] [HI_A; TAB; 89%N]
           OneSymbol [HI_A] [88%N] [89%N]).
  - reflexivity.
  - reflexivity.
  - reflexivity.
  - intros raw v Hin. by apply elem_of_nil in Hin.
Defined.

(** C9: in the table [parseDictTsv] returns, a key of [map1] is one code
    unit of the hiragana range and a key of [map2] is two of them; a line
    that is blank, or starts with #, or has no tab, or whose normalised key
    has no symbol, three or more symbols, or a symbol outside the alphabet,
    leaves the table as it was. *)
Theorem parsed_table_invariant
    (normalizeNFC : jsstring -> jsstring) (text : jsstring) :
  let d := parseDictTsv normalizeNFC text in
  (forall k, is_Some (map1 d !! k) ->
     exists u, k = [u] /\ (0x3041 <= u <= 0x3096)%N)
  /\ (forall k, is_Some (map2 d !! k) ->
        exists u0 u1, k = [u0; u1]
          /\ (0x3041 <= u0 <= 0x3096)%N /\ (0x3041 <= u1 <= 0x3096)%N)
  /\ (forall d0 raw,
        Forall (fun u => isTrimSpace u = true) raw
        \/ startsWith HASH raw = true
        \/ TAB ∉ raw
        \/ (exists key, line_key normalizeNFC raw = Some key
              /\ (length key = 0 \/ 3 <= length key
                  \/ Exists (fun ch => HIRAGANA_RE_test ch = false) key)) ->
        parse_line normalizeNFC d0 raw = d0).
Proof.
  intros d. subst d. split; [|split].
  - intros k [v Hv].
    apply (parsed_binding normalizeNFC text OneSymbol) in Hv as (raw & _ & He).
    apply line_entry_key in He as (key & _ & Hall & Hkey). simpl in Hkey. subst key.
    apply Forall_cons in Hall as [Hk _]. by apply hiragana_inv.
  - intros k [v Hv].
    apply (parsed_binding normalizeNFC text TwoSymbol) in Hv as (raw & _ & He).
    apply line_entry_key in He as (key & _ & Hall & k0 & k1 & -> & Hk). simpl in Hk.
    apply Forall_cons in Hall as [(u0 & -> & H0)%hiragana_inv Hall].
    apply Forall_cons in Hall as [(u1 & -> & H1)%hiragana_inv _].
    subst k. by exists u0, u1.
  - intros d0 raw Hdrop. rewrite parse_line_entry.
    destruct (line_entry normalizeNFC raw) as [e|] eqn:He; [|done]. exfalso.
    destruct Hdrop as [Hb|[Hc|[Ht|(key & Hkey & Hbad)]]].
    + by rewrite line_entry_blank in He.
    + by rewrite line_entry_comment in He.
    + by rewrite line_entry_no_tab in He.
    + apply line_entry_key in He as (key' & Hkey' & Hall & Hshape).
      rewrite Hkey in Hkey'. injection Hkey' as <-.
      assert (length key = 1 \/ length key = 2) as Hlen.
      { destruct (e_class e); [left; by subst|].
        destruct Hshape as (? & ? & -> & _). by right. }
      destruct Hbad as [?|[?|Hex]]; [lia..|].
      apply Exists_exists in Hex as (ch & Hin & Hch).
      rewrite Forall_forall in Hall. specialize (Hall ch Hin). congruence.
Qed.

Lemma parsed_table_invariant_witness :
  parse_line nfc_stable emptyDict [HI_A; 65%N; TAB; 88%N] = emptyDict.
Proof.
  apply (proj2 (proj2 (parsed_table_invariant nfc_stable []))).
  right. right. right. exists [[HI_A]; [65%N]]. split; [reflexivity|].
  right. right. apply Exists_cons_tl, Exists_cons_hd. reflexivity.
Defined.

(** * More properties of the script *)

(** ** The loops end at the end of the text *)

Lemma highlight_loop_scan fuel chars dict :
  length chars <= fuel ->
  highlight_loop fuel chars dict
    (mkMark 0 (replicate (length chars) (Some good)))
  = mkMark (length chars) (Some ∘ tag_of <$> per_position (scan dict chars)).
Proof.
  intros Hfuel.
  rewrite highlight_loop_run, (run_scan hl_i act_mark (fun _ _ => eq_refl) _ [] chars)
    by done.
  pose proof (scan_per_position_length dict chars) as Hlen.
  rewrite (foldl_act_mark _ [] (replicate (length chars) (Some good)))
    by (rewrite length_replicate; lia).
  cbn [length app]. rewrite Hlen, drop_ge by (rewrite length_replicate; lia).
  by rewrite app_nil_r.
Qed.

(** X1: the three loops stop at the end of the text.  With one turn of
    fuel per symbol, or more, the cursor of [convert]'s loop, of the second
    revision's and of the classification loop ends exactly at
    [chars.length], the guard of the loop fails there, and the result is
    the one of [length chars] turns. *)
Theorem loops_stop_at_end (chars : list jsstring) (dict : Dict) (more : nat) :
  let st := convert_loop (length chars + more) chars dict (mkScan 0 [] ∅) in
  let st' := Plain.convert_loop (length chars + more) chars dict (mkScan 0 [] ∅) in
  let hl := highlight_loop (length chars + more) chars dict
              (mkMark 0 (replicate (length chars) (Some good))) in
  (st_i st = length chars /\ convert_step chars dict st = None
   /\ st = convert_loop (length chars) chars dict (mkScan 0 [] ∅))
  /\ (st_i st' = length chars /\ Plain.convert_step chars dict st' = None
      /\ st' = Plain.convert_loop (length chars) chars dict (mkScan 0 [] ∅))
  /\ (hl_i hl = length chars /\ highlight_step chars dict hl = None
      /\ hl = highlight_loop (length chars) chars dict
                (mkMark 0 (replicate (length chars) (Some good)))).
Proof.
  intros st st' hl. subst st st' hl.
  rewrite !(convert_loop_scan _ [] chars) by (simpl; lia).
  rewrite !(plain_convert_loop_scan _ [] chars) by (simpl; lia).
  rewrite !highlight_loop_scan by lia.
  unfold convert_step, Plain.convert_step, highlight_step. cbn [st_i hl_i app].
  rewrite lookup_ge_None_2 by lia. done.
Qed.

(** ** Every symbol is read once *)

Lemma scan_symbols dict l : flat_map event_symbols (scan dict l) = l.
Proof.
  induction l as [|ch rest IH1 IH2] using list_ind_pairs; [done|].
  rewrite scan_cons.
  destruct rest as [|next rest']; cbn -[scan] in *;
    repeat case_match; cbn -[scan]; by rewrite ?IH1, ?IH2.
Qed.

(** X2: the turns of [convert]'s loop read every symbol of the text once
    and in order: each turn starts where the one before stopped, the symbols
    the turns consumed are the text, and there are at most as many turns as
    symbols and at least half as many. *)
Theorem turns_read_text_once (chars : list jsstring) (dict : Dict) :
  let trace := convert_trace (length chars) chars dict (mkScan 0 [] ∅) in
  trace = positions 0 (snd <$> trace)
  /\ flat_map event_symbols (snd <$> trace) = chars
  /\ length trace <= length chars <= 2 * length trace.
Proof.
  intros trace. subst trace.
  rewrite (convert_trace_scan _ [] chars) by done. cbn [length].
  rewrite positions_snd. split; [done|]. split; [apply scan_symbols|].
  assert (length (positions 0 (scan dict chars)) = length (scan dict chars)) as ->.
  { generalize 0. induction (scan dict chars) as [|ev evs IH]; intros n; [done|].
    simpl. by rewrite IH. }
  rewrite <- (scan_per_position_length dict chars).
  induction (scan dict chars) as [|ev evs IH]; [simpl; lia|].
  rewrite per_position_cons, length_app, length_replicate. simpl.
  destruct ev; simpl; lia.
Qed.

(** ** What the skipped set holds *)

Lemma scan_sound dict l : Forall (event_sound dict) (scan dict l).
Proof.
  induction l as [|ch rest IH1 IH2] using list_ind_pairs; [constructor|].
  rewrite scan_cons.
  destruct rest as [|next rest']; cbn -[scan] in *;
    repeat case_match; constructor; simpl; auto.
Qed.

Lemma scan_event_symbol dict l ev ch :
  ev ∈ scan dict l -> ch ∈ event_symbols ev -> ch ∈ l.
Proof.
  intros Hev Hch. rewrite <- (scan_symbols dict l).
  rewrite list_elem_of_In, in_flat_map. exists ev.
  by rewrite <- !list_elem_of_In.
Qed.

(** X3: a symbol in the skipped set of [convert] is a symbol of the text,
    is not whitespace, and is either not hiragana or has no entry in
    [map1]; one in the skipped set of the second revision is a hiragana
    symbol of the text without entry in [map1].  So when every hiragana
    symbol of the text has an entry in [map1], the second revision skips
    nothing. *)
Theorem skipped_are_unconverted
    (normalizeNFC : jsstring -> jsstring) (src : jsstring) (dict : Dict) :
  let chars := Array_from (normalizeNFC src) in
  (forall ch,
      ch ∈ skipped (convert normalizeNFC src dict) ->
      ch ∈ chars /\ isWhitespace ch = false
      /\ (HIRAGANA_RE_test ch = false \/ map1 dict !! ch = None))
  /\ (forall ch,
        ch ∈ skipped (Plain.convert normalizeNFC src dict) ->
        ch ∈ chars /\ HIRAGANA_RE_test ch = true /\ map1 dict !! ch = None)
  /\ ((forall ch, ch ∈ chars -> HIRAGANA_RE_test ch = true ->
         is_Some (map1 dict !! ch)) ->
      skipped (Plain.convert normalizeNFC src dict) = ∅).
Proof.
  intros chars. unfold convert, Plain.convert. fold chars.
  rewrite convert_chars_scan, plain_convert_chars_scan. cbn [skipped].
  pose proof (scan_ok dict chars) as Hok.
  pose proof (scan_sound dict chars) as Hsound.
  rewrite Forall_forall in Hok, Hsound.
  assert (forall ch, Unregistered ch ∈ scan dict chars ->
            ch ∈ chars /\ HIRAGANA_RE_test ch = true /\ map1 dict !! ch = None)
    as Hun.
  { intros ch Hin. split; [|split].
    - apply (scan_event_symbol dict chars _ ch Hin). simpl. set_solver.
    - apply (Hok _ Hin).
    - apply (Hsound _ Hin). }
  split; [|split].
  - intros ch [Hin|Hin]%elem_of_events_skipped.
    + destruct (Hok _ Hin) as [Hw Hh]. split; [|by auto].
      apply (scan_event_symbol dict chars _ ch Hin). simpl. set_solver.
    + destruct (Hun ch Hin) as (? & Hh & ?).
      split; [done|]. split; [by apply hiragana_not_whitespace | by right].
  - intros ch Hin%elem_of_events_skipped_plain. by apply Hun.
  - intros Hall. apply leibniz_equiv. apply elem_of_equiv_empty. 
    intros ch Hin%elem_of_events_skipped_plain.
    destruct (Hun ch Hin) as (Hc & Hh & Hnone).
    destruct (Hall ch Hc Hh) as [v Hv]. congruence.
Qed.

Lemma skipped_are_unconverted_witness :
  skipped (Plain.convert nfc_stable [HI_A; 88%N; HI_A]
             (mkDict {[ [HI_A] := lit "a" ]} ∅)) = ∅.
Proof.
  apply (proj2 (proj2 (skipped_are_unconverted nfc_stable [HI_A; 88%N; HI_A]
           (mkDict {[ [HI_A] := lit "a" ]} ∅)))).
  intros ch Hin Hh. vm_compute in Hin.
  apply elem_of_cons in Hin as [->|Hin]; [by eexists|].
  apply elem_of_cons in Hin as [->|Hin]; [done|].
  apply elem_of_cons in Hin as [->|Hin]; [by eexists|].
  by apply elem_of_nil in Hin.
Defined.

(** ** Converting a text in pieces *)

Lemma events_skipped_plain_app evs1 evs2 :
  events_skipped_plain (evs1 ++ evs2)
  = events_skipped_plain evs1 ∪ events_skipped_plain evs2.
Proof.
  unfold events_skipped_plain. rewrite fmap_app.
  apply leibniz_equiv, union_list_app.
Qed.

Lemma events_skipped_app evs1 evs2 :
  events_skipped (evs1 ++ evs2) = events_skipped evs1 ∪ events_skipped evs2.
Proof.
  unfold events_skipped. rewrite fmap_app. apply leibniz_equiv, union_list_app.
Qed.

(** X4: a text can be converted in two pieces, cut before any symbol that
    is not hiragana (a line feed, say): the output is the two outputs one
    after the other and the skipped set is the union of the two, in both
    revisions. *)
Theorem convert_splits_at_non_hiragana
    (dict : Dict) (pre post : list jsstring) (x : jsstring) :
  HIRAGANA_RE_test x = false ->
  convert_chars (pre ++ x :: post) dict
  = Converted_app (convert_chars pre dict) (convert_chars (x :: post) dict)
  /\ Plain.convert_chars (pre ++ x :: post) dict
     = Converted_app (Plain.convert_chars pre dict)
         (Plain.convert_chars (x :: post) dict).
Proof.
  intros Hx. rewrite !convert_chars_scan, !plain_convert_chars_scan.
  rewrite scan_app_break by done. unfold Converted_app. cbn [out skipped].
  by rewrite events_out_app, events_skipped_app, events_skipped_plain_app.
Qed.

Lemma convert_splits_at_non_hiragana_witness :
  convert_chars ([[HI_A]] ++ [LF] :: [[HI_I]]) emptyDict
  = Converted_app (convert_chars [[HI_A]] emptyDict)
      (convert_chars ([LF] :: [[HI_I]]) emptyDict).
Proof.
  apply (convert_splits_at_non_hiragana emptyDict [[HI_A]] [[HI_I]] [LF]).
  reflexivity.
Defined.

(** ** A table without pairs *)



(** ** The entries a conversion depends on *)

Lemma scan_ext d d' l :
  (forall ch, ch ∈ l -> map1 d !! ch = map1 d' !! ch) ->
  (forall a b, a ∈ l -> b ∈ l -> map2 d !! (a ++ b) = map2 d' !! (a ++ b)) ->
  scan d l = scan d' l.
Proof.
  induction l as [|ch rest IH1 IH2] using list_ind_pairs; [done|].
  intros H1 H2. rewrite !scan_cons.
  rewrite (H1 ch) by left.
  rewrite IH1 by (intros; (apply H1 || apply H2); by right).
  destruct rest as [|next rest']; [done|].
  rewrite (H2 ch next) by (by left || (right; left)).
  cbn [tail] in IH2.
  rewrite IH2 by (intros; (apply H1 || apply H2); by do 2 right).
  done.
Qed.

(** X6: a conversion and a classification depend on the table only
    through the entries for the symbols of the text and for the pairs of
    them: two tables that agree on these give the same results. *)
Theorem convert_depends_on_entries_of_text
    (d d' : Dict) (chars : list jsstring) :
  (forall ch, ch ∈ chars -> map1 d !! ch = map1 d' !! ch) ->
  (forall a b, a ∈ chars -> b ∈ chars ->
     map2 d !! (a ++ b) = map2 d' !! (a ++ b)) ->
  convert_chars chars d = convert_chars chars d'
  /\ Plain.convert_chars chars d = Plain.convert_chars chars d'
  /\ highlight_marks chars d = highlight_marks chars d'.
Proof.
  intros H1 H2.
  rewrite !convert_chars_scan, !plain_convert_chars_scan, !highlight_marks_scan.
  by rewrite (scan_ext d d' chars).
Qed.

Lemma convert_depends_on_entries_of_text_witness :
  convert_chars [[HI_A]] (mkDict {[ [HI_A] := lit "a" ]} ∅)
  = convert_chars [[HI_A]]
      (mkDict {[ [HI_A] := lit "a"; [HI_I] := lit "i" ]} ∅).
Proof.
  apply (convert_depends_on_entries_of_text
           (mkDict {[ [HI_A] := lit "a" ]} ∅)
           (mkDict {[ [HI_A] := lit "a"; [HI_I] := lit "i" ]} ∅) [[HI_A]]).
  - intros ch ->%list_elem_of_singleton. reflexivity.
  - intros a b _ _. reflexivity.
Defined.

(** ** [escapeHtml] *)

Lemma replaceAll_app pat rep a b :
  replaceAll pat rep (a ++ b) = replaceAll pat rep a ++ replaceAll pat rep b.
Proof. apply flat_map_app. Qed.

Lemma escapeHtml_app a b : escapeHtml (a ++ b) = escapeHtml a ++ escapeHtml b.
Proof. unfold escapeHtml. by rewrite !replaceAll_app. Qed.

Lemma escapeHtml_unit u : escapeHtml [u] = escape_unit u.
Proof.
  unfold escape_unit.
  destruct (N.eqb_spec u 38) as [->|H38]; [done|].
  destruct (N.eqb_spec u 60) as [->|H60]; [done|].
  destruct (N.eqb_spec u 62) as [->|H62]; [done|].
  destruct (N.eqb_spec u 34) as [->|H34]; [done|].
  destruct (N.eqb_spec u 39) as [->|H39]; [done|].
  apply N.eqb_neq in H38, H60, H62, H34, H39.
  unfold escapeHtml, replaceAll. simpl.
  rewrite H38. simpl. rewrite H60. simpl. rewrite H62. simpl.
  rewrite H34. simpl. by rewrite H39.
Qed.

Lemma escapeHtml_flat_map s : escapeHtml s = flat_map escape_unit s.
Proof.
  induction s as [|u s IH]; [done|].
  change (u :: s) with ([u] ++ s).
  by rewrite escapeHtml_app, escapeHtml_unit, IH.
Qed.

(** X7: the five [replaceAll] of [escapeHtml] amount to one pass that
    replaces each code unit on its own (the ampersands of the entities are
    not escaped again), so [escapeHtml] goes through concatenation. *)
Theorem escapeHtml_one_pass (a b : jsstring) :
  escapeHtml a = flat_map escape_unit a
  /\ escapeHtml (a ++ b) = escapeHtml a ++ escapeHtml b.
Proof. split; [apply escapeHtml_flat_map | apply escapeHtml_app]. Qed.

Lemma escape_unit_safe u :
  Forall (fun w => w <> 60%N /\ w <> 62%N /\ w <> 34%N /\ w <> 39%N)
    (escape_unit u).
Proof.
  unfold escape_unit.
  destruct (N.eqb_spec u 38); [by repeat constructor|].
  destruct (N.eqb_spec u 60); [by repeat constructor|].
  destruct (N.eqb_spec u 62); [by repeat constructor|].
  destruct (N.eqb_spec u 34); [by repeat constructor|].
  destruct (N.eqb_spec u 39); [by repeat constructor|].
  by repeat constructor.
Qed.

(** X8: the result of [escapeHtml] holds none of the characters
    [<], [>], double quote and single quote, and a string with none of the
    five escaped characters is returned as it is. *)
Theorem escapeHtml_leaves_no_markup (s : jsstring) :
  Forall (fun w => w <> 60%N /\ w <> 62%N /\ w <> 34%N /\ w <> 39%N)
    (escapeHtml s)
  /\ (Forall (fun u => u ∉ [38%N; 60%N; 62%N; 34%N; 39%N]) s ->
      escapeHtml s = s).
Proof.
  rewrite escapeHtml_flat_map. split.
  - induction s as [|u s IH]; [constructor|]. simpl.
    apply Forall_app. split; [apply escape_unit_safe | done].
  - induction 1 as [|u s Hu _ IH]; [done|]. simpl. rewrite IH.
    unfold escape_unit.
    destruct (N.eqb_spec u 38) as [->|?]; [exfalso; apply Hu; set_solver|].
    destruct (N.eqb_spec u 60) as [->|?]; [exfalso; apply Hu; set_solver|].
    destruct (N.eqb_spec u 62) as [->|?]; [exfalso; apply Hu; set_solver|].
    destruct (N.eqb_spec u 34) as [->|?]; [exfalso; apply Hu; set_solver|].
    destruct (N.eqb_spec u 39) as [->|?]; [exfalso; apply Hu; set_solver|].
    done.
Qed.

Lemma escapeHtml_leaves_no_markup_witness :
  escapeHtml [HI_A; 65%N; SPACE] = [HI_A; 65%N; SPACE].
Proof.
  apply (proj2 (escapeHtml_leaves_no_markup [HI_A; 65%N; SPACE])).
  repeat constructor; vm_compute; set_solver.
Defined.

(** ** The rendered highlight *)

Lemma render_cells_fold (pre l : list jsstring) (mark : list (option markTag))
    (acc : jsstring) :
  foldl (fun html i =>
           match (pre ++ l) !! i with
           | Some ch => html ++ render_cell ch (mark !! i)
           | None => html
           end) acc (seq (length pre) (length l))
  = acc ++ mjoin (imap (fun i ch => render_cell ch (mark !! (length pre + i))) l).
Proof.
  revert pre acc. induction l as [|ch l IH]; intros pre acc.
  - simpl. by rewrite app_nil_r.
  - cbn [length seq foldl imap mjoin]. rewrite list_lookup_middle by done.
    replace (pre ++ ch :: l) with ((pre ++ [ch]) ++ l) by (by rewrite <- app_assoc).
    replace (S (length pre)) with (length (pre ++ [ch]))
      by (rewrite length_app; simpl; lia).
    rewrite IH, <- app_assoc, Nat.add_0_r. f_equal.
    change (list_join N (?x :: ?l)) with (x ++ mjoin l). f_equal.
    f_equal. apply imap_ext. intros i x _. simpl. do 2 f_equal.
    rewrite length_app. simpl. lia.
Qed.

Lemma render_cells chars mark :
  render chars mark = mjoin (imap (fun i ch => render_cell ch (mark !! i)) chars).
Proof. exact (render_cells_fold [] chars mark []). Qed.

(** The decisions and the symbols, position by position. *)
Lemma per_position_symbol evs p ev :
  per_position evs !! p = Some ev ->
  exists ch, flat_map event_symbols evs !! p = Some ch /\ ch ∈ event_symbols ev.
Proof.
  revert p. induction evs as [|e evs IH]; intros p; [done|].
  rewrite per_position_cons. cbn [flat_map].
  assert (length (event_symbols e) = width e) as Hw by (by destruct e).
  destruct (decide (p < width e)) as [Hlt|Hge].
  - rewrite lookup_app_l by (rewrite length_replicate; lia).
    intros [-> _]%lookup_replicate.
    rewrite lookup_app_l by lia.
    destruct (lookup_lt_is_Some_2 (event_symbols e) p) as [ch Hch]; [lia|].
    exists ch. split; [done|]. by eapply list_elem_of_lookup_2.
  - rewrite !lookup_app_r by (rewrite ?length_replicate; lia).
    rewrite length_replicate, Hw. apply IH.
Qed.

Lemma event_symbol_position evs ev ch :
  ev ∈ evs -> ch ∈ event_symbols ev ->
  exists p, flat_map event_symbols evs !! p = Some ch
            /\ per_position evs !! p = Some ev.
Proof.
  intros Hev Hch. induction evs as [|e evs IH]; [by apply elem_of_nil in Hev|].
  rewrite per_position_cons. cbn [flat_map].
  assert (length (event_symbols e) = width e) as Hw by (by destruct e).
  apply elem_of_cons in Hev as [<-|Hev].
  - apply list_elem_of_lookup_1 in Hch as [p Hp].
    pose proof (lookup_lt_Some _ _ _ Hp) as Hlt.
    exists p. rewrite !lookup_app_l by (rewrite ?length_replicate; lia).
    split; [done|]. apply lookup_replicate_2. lia.
  - destruct (IH Hev) as (p & Hp1 & Hp2). exists (width e + p).
    rewrite !lookup_app_r by (rewrite ?length_replicate; lia).
    rewrite length_replicate, Hw.
    by replace (width e + p - width e) with p by lia.
Qed.

Lemma bad_position dict l ch :
  (Foreign ch ∈ scan dict l \/ Unregistered ch ∈ scan dict l)
  <-> exists p, l !! p = Some ch
        /\ (Some ∘ tag_of <$> per_position (scan dict l)) !! p = Some (Some bad).
Proof.
  split.
  - intros H.
    assert (exists ev, ev ∈ scan dict l /\ event_symbols ev = [ch]
                       /\ tag_of ev = bad) as (ev & Hev & Hsym & Htag).
    { destruct H as [H|H]; eexists; (split; [exact H|done]). }
    destruct (event_symbol_position (scan dict l) ev ch Hev) as (p & Hp1 & Hp2).
    { rewrite Hsym. set_solver. }
    rewrite scan_symbols in Hp1. exists p. split; [done|].
    by rewrite list_lookup_fmap, Hp2; simpl; rewrite Htag.
  - intros (p & Hp & Hbad). rewrite list_lookup_fmap in Hbad.
    destruct (per_position (scan dict l) !! p) as [ev|] eqn:Hev; [|done].
    assert (ev ∈ scan dict l) as Hin.
    { apply list_elem_of_lookup_2 in Hev. unfold per_position in Hev.
      apply list_elem_of_In, in_flat_map in Hev as (e & He & Hr).
      apply list_elem_of_In, elem_of_replicate in Hr as [-> _].
      by apply list_elem_of_In. }
    apply per_position_symbol in Hev as (ch' & Hch' & Hsym).
    rewrite scan_symbols, Hp in Hch'. injection Hch' as <-.
    simpl in Hbad.
    destruct ev; simplify_eq/=; apply list_elem_of_singleton in Hsym as ->; auto.
Qed.

(** X9: the skipped set of [convert] holds exactly the symbols that stand
    at a position the classification marks bad. *)
Theorem skipped_are_the_bad_marks
    (normalizeNFC : jsstring -> jsstring) (src : jsstring) (dict : Dict)
    (ch : jsstring) :
  let chars := Array_from (normalizeNFC src) in
  ch ∈ skipped (convert normalizeNFC src dict)
  <-> exists p, chars !! p = Some ch
        /\ highlight_marks chars dict !! p = Some (Some bad).
Proof.
  intros chars. unfold convert. fold chars.
  rewrite convert_chars_scan, highlight_marks_scan. cbn [skipped].
  rewrite elem_of_events_skipped. apply bad_position.
Qed.

Lemma highlight_cell dict chars p ch :
  chars !! p = Some ch ->
  render_cell ch (highlight_marks chars dict !! p)
  = match convert_decision chars dict p with
    | Some ev =>
        if is_miss ev then span_bad (escapeHtml (tab_expand ch))
        else escapeHtml (tab_expand ch)
    | None => escapeHtml (tab_expand ch)
    end.
Proof.
  intros _. rewrite highlight_marks_scan, convert_decision_scan, list_lookup_fmap.
  destruct (per_position (scan dict chars) !! p) as [ev|]; [|done].
  by destruct ev.
Qed.

(** X10: the html of [buildHighlightHtml] is, symbol by symbol, the escaped
    symbol (a tab as four spaces), inside a span of class bad exactly when
    the turn of [convert] that consumed the position recorded a
    non-match. *)
Theorem highlight_html_follows_convert
    (normalizeNFC : jsstring -> jsstring) (src : jsstring) (dict : Dict) :
  let chars := Array_from (normalizeNFC src) in
  buildHighlightHtml normalizeNFC src dict
  = mjoin (imap (fun p ch =>
                   match convert_decision chars dict p with
                   | Some ev =>
                       if is_miss ev
                       then span_bad (escapeHtml (tab_expand ch))
                       else escapeHtml (tab_expand ch)
                   | None => escapeHtml (tab_expand ch)
                   end) chars).
Proof.
  intros chars. unfold buildHighlightHtml. fold chars.
  rewrite render_cells. f_equal. apply imap_ext.
  intros p ch Hp. by apply highlight_cell.
Qed.

Lemma escapeHtml_no_lt s : 60%N ∉ escapeHtml s.
Proof.
  rewrite escapeHtml_flat_map. induction s as [|u s IH]; [apply not_elem_of_nil|].
  simpl. rewrite elem_of_app. intros [H|H]; [|done].
  pose proof (escape_unit_safe u) as Hs. rewrite Forall_forall in Hs.
  by destruct (Hs _ H).
Qed.

Lemma escapeHtml_join (l : list jsstring) :
  mjoin (escapeHtml <$> l) = escapeHtml (mjoin l).
Proof.
  induction l as [|x l IH]; [done|].
  cbn [fmap list_fmap]. change (mjoin (x :: l)) with (x ++ mjoin l).
  rewrite escapeHtml_app, <- IH. done.
Qed.

(** X11: [buildHighlightHtml] returns the escaped text (tabs as four
    spaces) without any markup exactly when [convert] skips nothing. *)
Theorem highlight_html_plain_iff_nothing_skipped
    (normalizeNFC : jsstring -> jsstring) (src : jsstring) (dict : Dict) :
  let chars := Array_from (normalizeNFC src) in
  skipped (convert normalizeNFC src dict) = ∅
  <-> buildHighlightHtml normalizeNFC src dict
      = escapeHtml (mjoin (tab_expand <$> chars)).
Proof.
  intros chars. unfold buildHighlightHtml, convert. fold chars.
  rewrite render_cells, convert_chars_scan. cbn [skipped]. split.
  - intros Hnone. rewrite <- escapeHtml_join, <- list_fmap_compose, <- imap_const.
    f_equal. apply imap_ext. intros p ch Hp. cbn [const compose].
    rewrite highlight_marks_scan, list_lookup_fmap.
    destruct (per_position (scan dict chars) !! p) as [ev|] eqn:Hev; [|done].
    assert (tag_of ev <> bad) as Hnb.
    { intros Hbad.
      assert (ch ∈ events_skipped (scan dict chars)) as Hin; [|set_solver].
      apply elem_of_events_skipped, bad_position. exists p. split; [done|].
      by rewrite list_lookup_fmap, Hev; simpl; rewrite Hbad. }
    by destruct ev.
  - intros Hhtml. apply leibniz_equiv, elem_of_equiv_empty. intros ch Hin.
    apply elem_of_events_skipped, bad_position in Hin as (p & Hp & Hbad).
    apply (escapeHtml_no_lt (mjoin (tab_expand <$> chars))).
    rewrite <- Hhtml. apply list_elem_of_join.
    exists (render_cell ch (highlight_marks chars dict !! p)).
    split; [|by apply (elem_of_lookup_imap_2
                         (fun i ch => render_cell ch (highlight_marks chars dict !! i)))].
    rewrite highlight_marks_scan, Hbad. vm_compute. set_solver.
Qed.

(** ** The two parsers *)

Lemma plain_parse_step normalizeNFC lines i d :
  PlainDict.parse_step normalizeNFC lines (i, d)
  = (fun raw => (i + 1, parse_line normalizeNFC d raw)) <$> lines !! i.
Proof.
  unfold PlainDict.parse_step, parse_line. cbn [fst snd].
  destruct (lines !! i) as [raw|]; [|done]. cbn [fmap option_fmap option_map].
  destruct (_ || _); [done|].
  destruct (indexOf TAB (trimEnd raw)) as [tab|]; [|done].
  destruct (Array_from _) as [|k0 [|k1 [|]]]; try done.
  - by destruct (HIRAGANA_RE_test k0).
  - by destruct (_ && _).
Qed.

Lemma plain_parse_loop normalizeNFC fuel pre l d :
  length l <= fuel ->
  PlainDict.parse_loop normalizeNFC fuel (pre ++ l) (length pre, d)
  = (length (pre ++ l), foldl (parse_line normalizeNFC) d l).
Proof.
  revert pre l d. induction fuel as [|fuel IH]; intros pre l d Hl.
  - destruct l; [|simpl in Hl; lia]. by rewrite app_nil_r.
  - cbn [PlainDict.parse_loop]. rewrite plain_parse_step.
    destruct l as [|raw l].
    + rewrite app_nil_r, lookup_ge_None_2 by lia. done.
    + rewrite list_lookup_middle by done. cbn [fmap option_fmap option_map foldl].
      replace (pre ++ raw :: l) with ((pre ++ [raw]) ++ l)
        by (by rewrite <- app_assoc).
      replace (length pre + 1) with (length (pre ++ [raw]))
        by (rewrite length_app; simpl; lia).
      apply IH. simpl in Hl. lia.
Qed.

(** X12: the [parseDictTsv] of the second revision (lines 204-237) returns
    the same table as the one of lines 19-47, and its indexed loop has left
    through its guard when its fuel is spent. *)
Theorem parsers_agree (normalizeNFC : jsstring -> jsstring) (text : jsstring) :
  PlainDict.parseDictTsv normalizeNFC text = parseDictTsv normalizeNFC text
  /\ PlainDict.parse_step normalizeNFC (split_lines text)
       (PlainDict.parse_loop normalizeNFC (length (split_lines text))
          (split_lines text) (0, emptyDict)) = None.
Proof.
  unfold PlainDict.parseDictTsv, parseDictTsv.
  rewrite (plain_parse_loop normalizeNFC _ [] (split_lines text)) by done.
  split; [done|]. rewrite plain_parse_step.
  by rewrite lookup_ge_None_2.
Qed.

(** ** Looking a key up *)

Lemma parse_fold_lookup normalizeNFC lines d c k :
  table_get (foldl (parse_line normalizeNFC) d lines) c k
  = match last (filter (fun e => e_class e = c /\ e_key e = k)
                  (omap (line_entry normalizeNFC) lines)) with
    | Some e => Some (e_value e)
    | None => table_get d c k
    end.
Proof.
  induction lines as [|raw lines IH] using rev_ind; [done|].
  rewrite foldl_app, omap_app, filter_app. cbn [foldl omap list_omap].
  rewrite parse_line_entry.
  destruct (line_entry normalizeNFC raw) as [e|].
  - rewrite table_get_set, filter_cons, filter_nil.
    repeat case_decide; try (exfalso; naive_solver).
    + by rewrite last_snoc.
    + by rewrite app_nil_r.
  - by rewrite app_nil_r.
Qed.

(** X13: looking a key up in the parsed table gives the value of the last
    line with an entry for that key in that map, and nothing when no line
    has one. *)
Theorem lookup_is_last_entry
    (normalizeNFC : jsstring -> jsstring) (text : jsstring)
    (c : keyClass) (k : jsstring) :
  table_get (parseDictTsv normalizeNFC text) c k
  = e_value <$> last (entries_for normalizeNFC text c k).
Proof.
  unfold parseDictTsv, entries_for. rewrite parse_fold_lookup.
  destruct (last _); [done|]. by destruct c.
Qed.

(** ** Line endings and trailing whitespace *)

Lemma trimStart_app a b :
  trimStart (a ++ b)
  = match trimStart a with [] => trimStart b | t => t ++ b end.
Proof.
  induction a as [|u a IH]; [done|]. simpl.
  destruct (isTrimSpace u); [apply IH | done].
Qed.

Lemma trimEnd_cons_cong u s s' :
  trimEnd s = trimEnd s' -> trimEnd (u :: s) = trimEnd (u :: s').
Proof.
  unfold trimEnd. intros H. apply (f_equal (@rev N)) in H.
  rewrite !rev_involutive in H. simpl. by rewrite !trimStart_app, H.
Qed.

Lemma split_lines_trimEnd t : trimEnd <$> split_lines t = trimEnd <$> split_LF t.
Proof.
  induction t as [|u rest IH1 IH2] using list_ind_pairs; [done|].
  assert (trimEnd <$> match split_lines rest with
                      | line :: lines => (u :: line) :: lines
                      | [] => [[u]]
                      end
          = trimEnd <$> match split_LF rest with
                        | line :: lines => (u :: line) :: lines
                        | [] => [[u]]
                        end) as Hcont.
  { destruct (split_lines rest) as [|l0 ls], (split_LF rest) as [|m0 ms];
      try done.
    rewrite !fmap_cons in IH1. injection IH1 as Hhd Htl.
    rewrite !fmap_cons, Htl. f_equal. by apply trimEnd_cons_cong. }
  cbn [split_lines split_LF].
  destruct (N.eqb_spec u LF) as [->|Hlf]; [by rewrite !fmap_cons, IH1|].
  destruct (N.eqb_spec u CR) as [->|Hcr]; [|done].
  destruct rest as [|v rest']; [done|].
  destruct (N.eqb_spec v LF) as [->|Hv]; [|done].
  cbn [tail] in IH2. cbn [split_LF]. 
  replace (LF =? LF)%N with true by done.
  rewrite !fmap_cons, IH2. done.
Qed.

Lemma parse_lines_trimEnd normalizeNFC d ls ls' :
  trimEnd <$> ls = trimEnd <$> ls' ->
  foldl (parse_line normalizeNFC) d ls = foldl (parse_line normalizeNFC) d ls'.
Proof.
  revert d ls'. induction ls as [|l ls IH]; intros d [|l' ls'] H; simplify_eq/=;
    [done|].
  replace (parse_line normalizeNFC d l') with (parse_line normalizeNFC d l)
    by (unfold parse_line; by rewrite H).
  by apply IH.
Qed.

Lemma split_LF_to_crlf t :
  trimEnd <$> split_LF (to_crlf t) = trimEnd <$> split_LF t.
Proof.
  induction t as [|u rest IH]; [done|].
  unfold to_crlf in *. cbn [flat_map].
  destruct (N.eqb_spec u LF) as [->|Hlf].
  - cbn [app split_LF].
    replace (CR =? LF)%N with false by done.
    replace (LF =? LF)%N with true by done.
    rewrite !fmap_cons, IH. done.
  - cbn [app split_LF]. apply N.eqb_neq in Hlf. rewrite Hlf.
    destruct (split_LF (flat_map _ rest)) as [|l0 ls], (split_LF rest) as [|m0 ms];
      try done.
    rewrite !fmap_cons in IH. injection IH as Hhd Htl.
    rewrite !fmap_cons, Htl. f_equal. by apply trimEnd_cons_cong.
Qed.

(** X14: the carriage return that the separator may take makes no
    difference to the table: cutting the text at LF only gives the same
    table, and so does a text in which every LF is made a CR LF. *)
Theorem parse_ignores_line_ending_style
    (normalizeNFC : jsstring -> jsstring) (text : jsstring) :
  parseDictTsv normalizeNFC text
  = foldl (parse_line normalizeNFC) emptyDict (split_LF text)
  /\ parseDictTsv normalizeNFC (to_crlf text) = parseDictTsv normalizeNFC text.
Proof.
  unfold parseDictTsv. split.
  - apply parse_lines_trimEnd, split_lines_trimEnd.
  - apply parse_lines_trimEnd.
    by rewrite !split_lines_trimEnd, split_LF_to_crlf.
Qed.

(** ** A dictionary in two parts *)

Lemma split_LF_nonempty t : split_LF t <> [].
Proof.
  destruct t as [|u rest]; [done|]. simpl.
  destruct (u =? LF)%N; [done|]. by destruct (split_LF rest).
Qed.

Lemma split_LF_app t1 t2 :
  split_LF (t1 ++ LF :: t2) = split_LF t1 ++ split_LF t2.
Proof.
  induction t1 as [|u rest IH]; [done|].
  cbn [app split_LF]. rewrite IH.
  destruct (u =? LF)%N; [done|].
  pose proof (split_LF_nonempty rest). by destruct (split_LF rest).
Qed.

Lemma parse_fold_layer normalizeNFC d ls c k :
  table_get (foldl (parse_line normalizeNFC) d ls) c k
  = match table_get (foldl (parse_line normalizeNFC) emptyDict ls) c k with
    | Some v => Some v
    | None => table_get d c k
    end.
Proof.
  rewrite !parse_fold_lookup. destruct (last _); [done|]. by destruct c.
Qed.

(** X15: the table of a text in two parts, one line feed between them, is
    the table of the second part laid over the table of the first. *)
Theorem parse_second_part_overrides
    (normalizeNFC : jsstring -> jsstring) (t1 t2 : jsstring) :
  let d := parseDictTsv normalizeNFC (t1 ++ [LF] ++ t2) in
  map1 d = map1 (parseDictTsv normalizeNFC t2) ∪ map1 (parseDictTsv normalizeNFC t1)
  /\ map2 d
     = map2 (parseDictTsv normalizeNFC t2) ∪ map2 (parseDictTsv normalizeNFC t1).
Proof.
  intros d. subst d.
  assert (forall c k,
    table_get (parseDictTsv normalizeNFC (t1 ++ [LF] ++ t2)) c k
    = match table_get (parseDictTsv normalizeNFC t2) c k with
      | Some v => Some v
      | None => table_get (parseDictTsv normalizeNFC t1) c k
      end) as H.
  { intros c k. unfold parseDictTsv.
    rewrite (parse_lines_trimEnd _ _ _ _ (split_lines_trimEnd (t1 ++ [LF] ++ t2))).
    rewrite (parse_lines_trimEnd _ _ _ _ (split_lines_trimEnd t1)).
    rewrite (parse_lines_trimEnd _ _ _ _ (split_lines_trimEnd t2)).
    cbn [app]. rewrite split_LF_app, foldl_app. apply parse_fold_layer. }
  split; apply map_eq; intros k; rewrite lookup_union.
  - specialize (H OneSymbol k). cbn [table_get] in H. rewrite H.
    by destruct (map1 (parseDictTsv normalizeNFC t2) !! k),
                (map1 (parseDictTsv normalizeNFC t1) !! k).
  - specialize (H TwoSymbol k). cbn [table_get] in H. rewrite H.
    by destruct (map2 (parseDictTsv normalizeNFC t2) !! k),
                (map2 (parseDictTsv normalizeNFC t1) !! k).
Qed.

(** ** The skipped symbols in order, and the status line *)

Example status_sample :
  refresh_status nfc_stable [HI_I; 88%N; HI_A; HI_I]
    (mkDict {[ [HI_A] := lit "a" ]} ∅)
  = [0x8f9e; 0x66f8; 0xff1a; 0x31; 0x6587; 0x5b57]%N ++ lit "1"
    ++ [0x4ef6; 0x20; 0x2f; 0x20; 0x32; 0x6587; 0x5b57]%N ++ lit "0"
    ++ [0x4ef6]%N ++ [0x20; 0x2f; 0x20; 0x672a; 0x767b; 0x9332; 0xff1a]%N
    ++ [HI_I].
Proof. vm_compute. reflexivity. Qed.

Lemma ord_convert_step_event chars dict st :
  InOrder.convert_step chars dict st =
  (fun ev => act_ord ev st) <$> convert_event chars dict (ord_i st).
Proof.
  unfold act_ord, InOrder.convert_step, convert_event.
  destruct (chars !! ord_i st) as [ch|]; [|done].
  destruct (isWhitespace ch); [simpl; by rewrite ?app_nil_r|].
  destruct (HIRAGANA_RE_test ch); [|simpl; by rewrite ?app_nil_r]. simpl.
  destruct (chars !! (ord_i st + 1)) as [next|];
    [destruct (HIRAGANA_RE_test next);
       [destruct (map2 dict !! (ch ++ next)); [done|]|]|];
    destruct (map1 dict !! ch); simpl; by rewrite ?app_nil_r.
Qed.

Lemma ord_plain_convert_step_event chars dict st :
  InOrder.plain_convert_step chars dict st =
  (fun ev => act_ord_plain ev st) <$> convert_event chars dict (ord_i st).
Proof.
  unfold act_ord_plain, InOrder.plain_convert_step, convert_event.
  destruct (chars !! ord_i st) as [ch|]; [|done].
  destruct (isWhitespace ch); [simpl; by rewrite ?app_nil_r|].
  destruct (HIRAGANA_RE_test ch); [|simpl; by rewrite ?app_nil_r]. simpl.
  destruct (chars !! (ord_i st + 1)) as [next|];
    [destruct (HIRAGANA_RE_test next);
       [destruct (map2 dict !! (ch ++ next)); [done|]|]|];
    destruct (map1 dict !! ch); simpl; by rewrite ?app_nil_r.
Qed.

Lemma ord_loop_run chars dict fuel st :
  InOrder.loop (InOrder.convert_step chars dict) fuel st
  = run ord_i act_ord fuel chars dict st.
Proof.
  revert st. induction fuel as [|fuel IH]; intros st; [done|].
  simpl. rewrite ord_convert_step_event.
  destruct (convert_event chars dict (ord_i st)); simpl; [apply IH | done].
Qed.

Lemma ord_plain_loop_run chars dict fuel st :
  InOrder.loop (InOrder.plain_convert_step chars dict) fuel st
  = run ord_i act_ord_plain fuel chars dict st.
Proof.
  revert st. induction fuel as [|fuel IH]; intros st; [done|].
  simpl. rewrite ord_plain_convert_step_event.
  destruct (convert_event chars dict (ord_i st)); simpl; [apply IH | done].
Qed.

Lemma foldl_act_ord evs st :
  ord_skipped (foldl (fun s ev => act_ord ev s) st evs)
  = foldl (fun s x => Set_add x s) (ord_skipped st) (flat_map recorded_list evs).
Proof.
  revert st. induction evs as [|ev evs IH]; intros st; [done|].
  cbn [foldl flat_map]. by rewrite IH, foldl_app.
Qed.

Lemma foldl_act_ord_plain evs st :
  ord_skipped (foldl (fun s ev => act_ord_plain ev s) st evs)
  = foldl (fun s x => Set_add x s) (ord_skipped st)
      (flat_map recorded_list_plain evs).
Proof.
  revert st. induction evs as [|ev evs IH]; intros st; [done|].
  cbn [foldl flat_map]. by rewrite IH, foldl_app.
Qed.

Lemma skipped_of_scan normalizeNFC src dict :
  InOrder.skipped_of normalizeNFC src dict
  = foldl (fun s x => Set_add x s) []
      (flat_map recorded_list (scan dict (Array_from (normalizeNFC src)))).
Proof.
  unfold InOrder.skipped_of.
  rewrite ord_loop_run,
    (run_scan ord_i act_ord (fun _ _ => eq_refl) _ []
       (Array_from (normalizeNFC src))) by done.
  by rewrite foldl_act_ord.
Qed.

Lemma plain_skipped_of_scan normalizeNFC src dict :
  InOrder.plain_skipped_of normalizeNFC src dict
  = foldl (fun s x => Set_add x s) []
      (flat_map recorded_list_plain (scan dict (Array_from (normalizeNFC src)))).
Proof.
  unfold InOrder.plain_skipped_of.
  rewrite ord_plain_loop_run,
    (run_scan ord_i act_ord_plain (fun _ _ => eq_refl) _ []
       (Array_from (normalizeNFC src))) by done.
  by rewrite foldl_act_ord_plain.
Qed.

Lemma Set_add_elem x y s : y ∈ Set_add x s <-> y = x \/ y ∈ s.
Proof.
  unfold Set_add. case_decide; [|rewrite elem_of_app, list_elem_of_singleton];
    naive_solver.
Qed.

Lemma Set_add_NoDup x s : NoDup s -> NoDup (Set_add x s).
Proof.
  unfold Set_add. case_decide; [done|]. intros Hs.
  apply NoDup_app. split; [done|]. split; [|apply NoDup_singleton].
  intros y Hy ->%list_elem_of_singleton. done.
Qed.

Lemma first_occurrences_from_elem l s y :
  y ∈ foldl (fun s x => Set_add x s) s l <-> y ∈ s \/ y ∈ l.
Proof.
  revert s. induction l as [|x l IH]; intros s; simpl.
  - rewrite elem_of_nil. tauto.
  - rewrite IH, Set_add_elem, elem_of_cons. tauto.
Qed.

Lemma first_occurrences_from_NoDup l s :
  NoDup s -> NoDup (foldl (fun s x => Set_add x s) s l).
Proof.
  revert s. induction l as [|x l IH]; intros s Hs; [done|].
  simpl. by apply IH, Set_add_NoDup.
Qed.

Lemma filter_Set_add (P : jsstring -> bool) x s :
  List.filter P (Set_add x s)
  = if P x then Set_add x (List.filter P s) else List.filter P s.
Proof.
  unfold Set_add. destruct (P x) eqn:HP.
  - repeat case_decide; try done.
    + exfalso. apply H0. apply list_elem_of_In, filter_In.
      by rewrite <- list_elem_of_In.
    + exfalso. apply H. apply list_elem_of_In. 
      apply list_elem_of_In, filter_In in H0. tauto.
    + rewrite List.filter_app. simpl. by rewrite HP.
  - case_decide; [done|]. rewrite List.filter_app. simpl.
    by rewrite HP, app_nil_r.
Qed.

Lemma filter_first_occurrences_from (P : jsstring -> bool) l s :
  List.filter P (foldl (fun s x => Set_add x s) s l)
  = foldl (fun s x => Set_add x s) (List.filter P s) (List.filter P l).
Proof.
  revert s. induction l as [|x l IH]; intros s; [done|].
  simpl. rewrite IH, filter_Set_add. by destruct (P x).
Qed.

Lemma recorded_list_plain_filter evs :
  Forall event_ok evs ->
  flat_map recorded_list_plain evs
  = List.filter HIRAGANA_RE_test (flat_map recorded_list evs).
Proof.
  induction 1 as [|ev evs Hev _ IH]; [done|].
  cbn [flat_map]. rewrite List.filter_app, <- IH. f_equal.
  destruct ev; simpl in *; try done.
  - destruct Hev as [_ ->]. done.
  - by rewrite Hev.
Qed.

(** The list of the skipped symbols is the set that [convert] returns. *)
Lemma skipped_in_order_refines normalizeNFC src dict :
  (NoDup (InOrder.skipped_of normalizeNFC src dict)
   /\ list_to_set (InOrder.skipped_of normalizeNFC src dict)
      = skipped (convert normalizeNFC src dict))
  /\ (NoDup (InOrder.plain_skipped_of normalizeNFC src dict)
      /\ list_to_set (InOrder.plain_skipped_of normalizeNFC src dict)
         = skipped (Plain.convert normalizeNFC src dict)).
Proof.
  rewrite skipped_of_scan, plain_skipped_of_scan.
  unfold convert, Plain.convert.
  rewrite convert_chars_scan, plain_convert_chars_scan. cbn [skipped].
  generalize (scan dict (Array_from (normalizeNFC src))). intros evs.
  split; (split; [apply first_occurrences_from_NoDup, NoDup_nil_2|]).
  - apply leibniz_equiv. intros ch.
    rewrite elem_of_list_to_set, first_occurrences_from_elem, elem_of_nil.
    rewrite elem_of_events_skipped.
    rewrite (list_elem_of_In (flat_map _ _)), in_flat_map. split.
    + intros [[]|(ev & Hev & Hch)]. apply list_elem_of_In in Hev.
      destruct ev; simpl in Hch; try done; destruct Hch as [->|[]]; auto.
    + intros [H|H]; right; eexists; (split; [by apply list_elem_of_In|]);
        simpl; auto.
  - apply leibniz_equiv. intros ch.
    rewrite elem_of_list_to_set, first_occurrences_from_elem, elem_of_nil.
    rewrite elem_of_events_skipped_plain.
    rewrite (list_elem_of_In (flat_map _ _)), in_flat_map. split.
    + intros [[]|(ev & Hev & Hch)]. apply list_elem_of_In in Hev.
      destruct ev; simpl in Hch; try done; destruct Hch as [->|[]]; auto.
    + intros H; right; eexists; (split; [by apply list_elem_of_In|]);
        simpl; auto.
Qed.

Lemma plain_skipped_of_filter normalizeNFC src dict :
  InOrder.plain_skipped_of normalizeNFC src dict
  = List.filter HIRAGANA_RE_test (InOrder.skipped_of normalizeNFC src dict).
Proof.
  rewrite skipped_of_scan, plain_skipped_of_scan.
  rewrite filter_first_occurrences_from. simpl.
  by rewrite recorded_list_plain_filter by apply scan_ok.
Qed.

Lemma join_hiragana_nil l :
  Forall (fun ch => HIRAGANA_RE_test ch = true) l -> mjoin l = [] -> l = [].
Proof.
  intros Hall. destruct l as [|ch l]; [done|].
  apply Forall_cons in Hall as [(u & -> & _)%hiragana_inv _]. done.
Qed.

(** X16: the two revisions show the same status line for every text and
    table: [setStatus] filters the skipped symbols of [convert] down to the
    hiragana, which are the skipped symbols of the second revision, in the
    same order. *)
Theorem status_lines_agree
    (normalizeNFC : jsstring -> jsstring) (src : jsstring) (dict : Dict) :
  refresh_status normalizeNFC src dict
  = plain_refresh_status normalizeNFC src dict.
Proof.
  unfold refresh_status, plain_refresh_status, setStatus.
  rewrite plain_skipped_of_filter.
  set (sk := InOrder.skipped_of normalizeNFC src dict).
  assert (Forall (fun ch => HIRAGANA_RE_test ch = true)
            (List.filter HIRAGANA_RE_test sk)) as Hall.
  { apply Forall_forall. intros ch Hin%list_elem_of_In%filter_In. tauto. }
  destruct (List.filter HIRAGANA_RE_test sk) as [|ch l] eqn:Hf.
  - simpl. by destruct (0 <? length sk).
  - assert ((0 <? length sk) = true) as ->.
    { apply Nat.ltb_lt. destruct sk; [done | simpl; lia]. }
    rewrite bool_decide_eq_false_2; [done|].
    intros Hnil. by apply join_hiragana_nil in Hnil.
Qed.

(** X17: the status line is the bare count of entries exactly when no
    hiragana symbol was skipped (when the skipped set of the second revision
    is empty). *)
Theorem status_is_base_iff_hiragana_converted
    (normalizeNFC : jsstring -> jsstring) (src : jsstring) (dict : Dict) :
  refresh_status normalizeNFC src dict = status_base dict
  <-> skipped (Plain.convert normalizeNFC src dict) = ∅.
Proof.
  destruct (skipped_in_order_refines normalizeNFC src dict)
    as [_ [_ <-]].
  unfold refresh_status, setStatus. rewrite plain_skipped_of_filter.
  set (sk := InOrder.skipped_of normalizeNFC src dict).
  assert (Forall (fun ch => HIRAGANA_RE_test ch = true)
            (List.filter HIRAGANA_RE_test sk)) as Hall.
  { apply Forall_forall. intros ch Hin%list_elem_of_In%filter_In. tauto. }
  destruct (List.filter HIRAGANA_RE_test sk) as [|ch l] eqn:Hf.
  - split; [done|]. intros _. simpl. by destruct (0 <? length sk).
  - assert ((0 <? length sk) = true) as ->.
    { apply Nat.ltb_lt. destruct sk; [done | simpl; lia]. }
    rewrite bool_decide_eq_false_2
      by (intros Hnil; by apply join_hiragana_nil in Hnil).
    split.
    + intros Heq. apply (f_equal length) in Heq.
      rewrite !length_app in Heq. simpl in Heq. lia.
    + intros Hempty. exfalso.
      assert (ch ∈ (∅ : gset jsstring)) as Hin; [|set_solver].
      rewrite <- Hempty. set_solver.
Qed.

Lemma bad_symbols_blocks evs :
  omap (fun cm : jsstring * option markTag =>
          match snd cm with
          | Some bad => Some (fst cm)
          | _ => None
          end)
    (zip (flat_map event_symbols evs) (Some ∘ tag_of <$> per_position evs))
  = flat_map recorded_list evs.
Proof.
  induction evs as [|ev evs IH]; [done|].
  rewrite per_position_cons, fmap_app. cbn [flat_map].
  rewrite zip_with_app by (destruct ev; done).
  rewrite omap_app, IH. f_equal. by destruct ev.
Qed.

(** X18: the [Set] of skipped symbols lists, once each and in the order of
    the text, the symbols at the positions the classification marks bad
    (the hiragana among them, in the second revision); as a set it is the
    skipped set of [convert]. *)
Theorem skipped_order_is_text_order
    (normalizeNFC : jsstring -> jsstring) (src : jsstring) (dict : Dict) :
  let chars := Array_from (normalizeNFC src) in
  InOrder.skipped_of normalizeNFC src dict
  = first_occurrences (bad_symbols chars dict)
  /\ InOrder.plain_skipped_of normalizeNFC src dict
     = first_occurrences (List.filter HIRAGANA_RE_test (bad_symbols chars dict))
  /\ NoDup (InOrder.skipped_of normalizeNFC src dict)
  /\ list_to_set (InOrder.skipped_of normalizeNFC src dict)
     = skipped (convert normalizeNFC src dict).
Proof.
  intros chars.
  assert (bad_symbols chars dict = flat_map recorded_list (scan dict chars)) as Hbad.
  { unfold bad_symbols. rewrite highlight_marks_scan.
    rewrite <- (scan_symbols dict chars) at 1. apply bad_symbols_blocks. }
  rewrite plain_skipped_of_filter, skipped_of_scan, Hbad.
  fold chars. unfold first_occurrences.
  split; [done|]. split.
  { by rewrite filter_first_occurrences_from. }
  pose proof (skipped_in_order_refines normalizeNFC src dict) as [[Hnd Hset] _].
  rewrite skipped_of_scan in Hnd, Hset. done.
Qed.

(** ** What the output is made of *)

Lemma events_out_units dict evs u :
  Forall event_ok evs -> Forall (event_sound dict) evs ->
  u ∈ events_out evs ->
  u ∈ [LF; CR; TAB; SPACE]
  \/ exists k v, (map1 dict !! k = Some v \/ map2 dict !! k = Some v) /\ u ∈ v.
Proof.
  induction 1 as [|ev evs Hok _ IH]; intros Hsound Hu.
  - by apply elem_of_nil in Hu.
  - apply Forall_cons in Hsound as [Hs Hsound].
    rewrite events_out_cons, elem_of_app in Hu. destruct Hu as [Hu|Hu]; [|auto].
    destruct ev; simpl in *.
    + left. unfold isWhitespace, str_eqb in Hok.
      repeat (apply orb_true_iff in Hok as [Hok|Hok]);
        apply bool_decide_eq_true in Hok; subst; set_solver.
    + by apply elem_of_nil in Hu.
    + right. eauto.
    + right. eauto.
    + by apply elem_of_nil in Hu.
Qed.

(** X19: a code unit of the output of [convert] is one of the four
    whitespace characters or a code unit of a value of the table: no other
    character of the text reaches the output. *)
Theorem output_is_whitespace_and_values
    (normalizeNFC : jsstring -> jsstring) (src : jsstring) (dict : Dict)
    (u : N) :
  u ∈ out (convert normalizeNFC src dict) ->
  u ∈ [LF; CR; TAB; SPACE]
  \/ exists k v, (map1 dict !! k = Some v \/ map2 dict !! k = Some v) /\ u ∈ v.
Proof.
  unfold convert. rewrite convert_chars_scan. cbn [out].
  apply events_out_units; [apply scan_ok | apply scan_sound].
Qed.

Lemma output_is_whitespace_and_values_witness :
  120%N ∈ [LF; CR; TAB; SPACE]
  \/ exists k v,
       (map1 (mkDict {[ [HI_A] := lit "x" ]} ∅) !! k = Some v
        \/ map2 (mkDict {[ [HI_A] := lit "x" ]} ∅) !! k = Some v)
       /\ 120%N ∈ v.
Proof.
  apply (output_is_whitespace_and_values nfc_stable [HI_A; 88%N]
           (mkDict {[ [HI_A] := lit "x" ]} ∅) 120%N).
  vm_compute. set_solver.
Defined.

(** ** A text of whitespace *)

Lemma scan_whitespace dict l :
  Forall (fun ch => isWhitespace ch = true) l -> scan dict l = Passthrough <$> l.
Proof.
  induction 1 as [|ch l Hch _ IH]; [done|].
  by rewrite scan_cons, Hch, IH.
Qed.

(** X20: a text of whitespace only (the empty text too) is returned as it
    is by both revisions, with nothing skipped, and every position is marked
    space, whatever the table. *)
Theorem whitespace_text_passes_through
    (dict : Dict) (chars : list jsstring) :
  Forall (fun ch => isWhitespace ch = true) chars ->
  convert_chars chars dict = mkConverted (mjoin chars) ∅
  /\ Plain.convert_chars chars dict = mkConverted (mjoin chars) ∅
  /\ highlight_marks chars dict = replicate (length chars) (Some space).
Proof.
  intros Hws.
  rewrite convert_chars_scan, plain_convert_chars_scan, highlight_marks_scan.
  rewrite scan_whitespace by done. clear Hws.
  induction chars as [|ch l (IH1 & IH2 & IH3)]; [done|].
  rewrite fmap_cons, events_out_cons, events_skipped_cons,
    events_skipped_plain_cons, per_position_cons.
  injection IH1 as Ho Hs. injection IH2 as _ Hp.
  cbn [emitted recorded recorded_plain width replicate app fmap list_fmap length].
  rewrite Ho, Hs, Hp, IH3.
  repeat split; f_equal; set_solver.
Qed.

Lemma whitespace_text_passes_through_witness :
  convert_chars [[SPACE]; [LF]] emptyDict = mkConverted [SPACE; LF] ∅.
Proof.
  apply (whitespace_text_passes_through emptyDict [[SPACE]; [LF]]).
  repeat constructor.
Defined.

(** ** Every entry of a parsed table can be reached *)

(** X21: every entry of a parsed table can be reached: converting the key
    of an entry of [map1], or the two symbols of a key of [map2], gives the
    value of the entry and skips nothing. *)
Theorem parsed_entries_are_reachable
    (normalizeNFC : jsstring -> jsstring) (text : jsstring) :
  let d := parseDictTsv normalizeNFC text in
  (forall k v, map1 d !! k = Some v ->
     convert_chars [k] d = mkConverted v ∅)
  /\ (forall k v, map2 d !! k = Some v ->
        exists a b, k = a ++ b /\ convert_chars [a; b] d = mkConverted v ∅).
Proof.
  intros d. subst d. split.
  - intros k v Hv.
    pose proof Hv as He.
    apply (parsed_binding normalizeNFC text OneSymbol) in He as (raw & _ & He).
    apply line_entry_key in He as (key & _ & Hall & Hkey). simpl in Hkey. subst key.
    apply Forall_cons in Hall as [Hk _].
    rewrite convert_chars_scan, scan_cons, (hiragana_not_whitespace k Hk), Hk, Hv.
    unfold events_out, events_skipped. simpl.
    f_equal; rewrite ?app_nil_r; try done; set_solver.
  - intros k v Hv.
    pose proof Hv as He.
    apply (parsed_binding normalizeNFC text TwoSymbol) in He as (raw & _ & He).
    apply line_entry_key in He as (key & _ & Hall & a & b & -> & Hk). simpl in Hk.
    apply Forall_cons in Hall as [Ha Hall].
    apply Forall_cons in Hall as [Hb _].
    exists a, b. split; [done|].
    rewrite convert_chars_scan, scan_cons, (hiragana_not_whitespace a Ha), Ha, Hb.
    simpl. rewrite <- Hk, Hv.
    unfold events_out, events_skipped. simpl.
    f_equal; rewrite ?app_nil_r; try done; set_solver.
Qed.

Lemma parsed_entries_are_reachable_witness :
  convert_chars [[HI_A]] (parseDictTsv nfc_stable [HI_A; TAB; 88%N])
  = mkConverted [88%N] ∅.
Proof.
  apply (proj1 (parsed_entries_are_reachable nfc_stable [HI_A; TAB; 88%N])).
  reflexivity.
Defined.
